(** * pumpp: frame-aligned annotation encoding

    A shallow embedding of [pumpp/task/base.py], [pumpp/task/event.py] and
    [pumpp/feature/fft.py], with the slice of numpy array semantics these
    modules rely on (dtype-directed fill values and addition, integer
    indexing with wrap-around of negative indices, slice clipping). *)

From Stdlib Require Import ZArith QArith Qround Lia.
From stdpp Require Import base option list strings gmap.

Local Open Scope Z_scope.

(** ** Exceptions and the error monad *)

Inductive exn : Type :=
  | IndexError        (* integer index out of bounds *)
  | ValueError        (* negative dimension passed to [np.empty] *)
  | NamespaceError    (* [jams.NamespaceError] *)
  | KeyError          (* [dict.pop] of an absent key *)
  | DuplicateFieldError
  | UnknownFieldError
  | OtherError (msg : string).

Inductive result (A : Type) : Type :=
  | Ok (a : A)
  | Raise (e : exn).
Arguments Ok {A} a.
Arguments Raise {A} e.

#[export] Instance result_ret : MRet result := λ A a, Ok a.

#[export] Instance result_bind : MBind result := λ A B k r,
  match r with
  | Ok a => k a
  | Raise e => Raise e
  end.

Definition is_ok {A} (r : result A) : bool :=
  match r with Ok _ => true | Raise _ => false end.

(** ** Scalars and dtypes *)

(** A floating-point number is either not-a-number or a finite value.  Finite
    values are kept as reduced rationals: rounding is not modelled, and the
    encoders never observe a finite sum in a floating array (see
    [encode_floating_all_nan]). *)
Inductive float : Type :=
  | NaN
  | Fin (q : Q).

(** Conversion of a finite value to an integer truncates toward zero. *)
Definition Qtruncate (q : Q) : Z := Z.quot (Qnum q) (Z.pos (Qden q)).

Definition fadd (x y : float) : float :=
  match x, y with
  | Fin a, Fin b => Fin (Qred (a + b))
  | _, _ => NaN
  end.

Definition isnan (x : float) : bool :=
  match x with NaN => true | Fin _ => false end.

Inductive dtype : Type :=
  | np_bool
  | np_int (bits : positive)
  | np_uint (bits : positive)
  | np_float
  | np_complex.

Definition elem (dt : dtype) : Type :=
  match dt with
  | np_bool => bool
  | np_int _ | np_uint _ => Z
  | np_float => float
  | np_complex => (float * float)%type
  end.

Definition wrap_signed (w : positive) (z : Z) : Z :=
  (z + 2 ^ (Z.pos w - 1)) mod 2 ^ Z.pos w - 2 ^ (Z.pos w - 1).

Definition wrap_unsigned (w : positive) (z : Z) : Z :=
  z mod 2 ^ Z.pos w.

(** [np.issubdtype(dtype, np.float)] and [np.issubdtype(dtype, np.complex)]. *)
Definition issubdtype_float (dt : dtype) : bool :=
  match dt with np_float => true | _ => false end.

Definition issubdtype_complex (dt : dtype) : bool :=
  match dt with np_complex => true | _ => false end.

(** [dtype(x)] for a Python float [x].  For integer dtypes numpy refuses a
    NaN argument; [fill_value] never takes that path. *)
Definition dtype_of_float (dt : dtype) (x : float) : elem dt :=
  match dt with
  | np_bool => match x with NaN => true | Fin q => negb (Qeq_bool q 0) end
  | np_int w => match x with NaN => 0 | Fin q => wrap_signed w (Qtruncate q) end
  | np_uint w => match x with NaN => 0 | Fin q => wrap_unsigned w (Qtruncate q) end
  | np_float => x
  | np_complex => (x, Fin 0)
  end.

(** [dtype(n)] for a Python integer [n]. *)
Definition dtype_of_int (dt : dtype) (n : Z) : elem dt :=
  match dt with
  | np_bool => negb (n =? 0)
  | np_int w => wrap_signed w n
  | np_uint w => wrap_unsigned w n
  | np_float => Fin (inject_Z n)
  | np_complex => (Fin (inject_Z n), Fin 0)
  end.

(** The addition ufunc at each dtype: logical or on booleans, wrap-around on
    fixed-width integers, NaN-absorbing on floats, componentwise on complex. *)
Definition add (dt : dtype) : elem dt → elem dt → elem dt :=
  match dt with
  | np_bool => orb
  | np_int w => λ a b, wrap_signed w (a + b)
  | np_uint w => λ a b, wrap_unsigned w (a + b)
  | np_float => fadd
  | np_complex => λ a b, (fadd a.1 b.1, fadd a.2 b.2)
  end.

(** [np.isnan] at each dtype (false on the exact dtypes, either component
    on complex). *)
Definition np_isnan (dt : dtype) : elem dt → bool :=
  match dt with
  | np_bool => λ _, false
  | np_int _ | np_uint _ => λ _, false
  | np_float => isnan
  | np_complex => λ c, isnan c.1 || isnan c.2
  end.

(** *** Casting: [ndarray.astype] on one scalar *)

Definition to_bool (sdt : dtype) : elem sdt → bool :=
  match sdt with
  | np_bool => λ b, b
  | np_int _ | np_uint _ => λ z, negb (z =? 0)
  | np_float => λ x, match x with NaN => true | Fin q => negb (Qeq_bool q 0) end
  | np_complex => λ c,
      match c.1, c.2 with
      | Fin a, Fin b => negb (Qeq_bool a 0 && Qeq_bool b 0)
      | _, _ => true
      end
  end.

Definition float_to_Z (x : float) : Z :=
  match x with
  | NaN => - 2 ^ 63   (* what the hardware conversion leaves on x86-64 *)
  | Fin q => Qtruncate q
  end.

Definition to_Z (sdt : dtype) : elem sdt → Z :=
  match sdt with
  | np_bool => λ b, if b then 1 else 0
  | np_int _ | np_uint _ => λ z, z
  | np_float => float_to_Z
  | np_complex => λ c, float_to_Z c.1
  end.

Definition to_float (sdt : dtype) : elem sdt → float :=
  match sdt with
  | np_bool => λ b, Fin (if b then 1 else 0)%Q
  | np_int _ | np_uint _ => λ z, Fin (inject_Z z)
  | np_float => λ x, x
  | np_complex => λ c, c.1
  end.

Definition to_complex (sdt : dtype) : elem sdt → float * float :=
  match sdt with
  | np_complex => λ c, c
  | _ => λ x, (to_float _ x, Fin 0)
  end.

Definition astype_scalar (sdt dt : dtype) (x : elem sdt) : elem dt :=
  match dt with
  | np_bool => to_bool sdt x
  | np_int w => wrap_signed w (to_Z sdt x)
  | np_uint w => wrap_unsigned w (to_Z sdt x)
  | np_float => to_float sdt x
  | np_complex => to_complex sdt x
  end.

(** ** Two-dimensional arrays *)

(** An array of shape [(length rows, shape1)].  [shape1] is kept apart from
    the rows so that an array of shape [(0, m)] has a second dimension. *)
Record ndarray (dt : dtype) : Type := mk_ndarray {
  shape1 : nat;
  rows : list (list (elem dt));
}.
Arguments mk_ndarray {dt} _ _.
Arguments shape1 {dt} _.
Arguments rows {dt} _.

Definition shape0 {dt} (a : ndarray dt) : nat := length (rows a).

Definition well_shaped {dt} (a : ndarray dt) : Prop :=
  Forall (λ r, length r = shape1 a) (rows a).

Definition astype {sdt} (dt : dtype) (a : ndarray sdt) : ndarray dt :=
  mk_ndarray (shape1 a) (map (map (astype_scalar sdt dt)) (rows a)).

(** [np.empty((n, m), dtype)] followed by [target.fill(v)]. *)
Definition np_full (dt : dtype) (n : Z) (m : nat) (v : elem dt)
  : result (list (list (elem dt))) :=
  if n <? 0 then Raise ValueError
  else Ok (replicate (Z.to_nat n) (replicate m v)).

(** Integer indexing [a[i]] on an axis of length [n]: negative indices count
    from the end, anything outside [-n, n) raises. *)
Definition index_axis (n : nat) (i : Z) : result nat :=
  if (0 <=? i) && (i <? Z.of_nat n) then Ok (Z.to_nat i)
  else if (- Z.of_nat n <=? i) && (i <? 0) then Ok (Z.to_nat (i + Z.of_nat n))
  else Raise IndexError.

(** One bound of a slice [a[i:j]] on an axis of length [n]: negative bounds
    count from the end, and the result is clipped to [0, n]. *)
Definition slice_bound (n : nat) (i : Z) : Z :=
  if i <? 0 then Z.max 0 (i + Z.of_nat n) else Z.min i (Z.of_nat n).

Definition in_slice (n : nat) (start stop : Z) (f : nat) : bool :=
  (slice_bound n start <=? Z.of_nat f) && (Z.of_nat f <? slice_bound n stop).

(** [row += column] on one row. *)
Definition row_iadd {dt} (row column : list (elem dt)) : list (elem dt) :=
  zip_with (add dt) row column.

(** [target[i] += column]. *)
Definition iadd_index {dt} (target : list (list (elem dt))) (i : Z)
    (column : list (elem dt)) : result (list (list (elem dt))) :=
  k ← index_axis (length target) i;
  Ok (alter (λ row, row_iadd row column) k target).

(** [target[start:stop] += column]. *)
Definition iadd_slice {dt} (target : list (list (elem dt))) (start stop : Z)
    (column : list (elem dt)) : list (list (elem dt)) :=
  imap (λ f row,
          if in_slice (length target) start stop f
          then row_iadd row column else row) target.

(** ** pumpp/task/base.py *)

(** [fill_value(dtype)]. *)
Definition fill_value (dt : dtype) : elem dt :=
  if issubdtype_float dt || issubdtype_complex dt
  then dtype_of_float dt NaN
  else dtype_of_int dt 0.

Record BaseTaskTransformer : Type := mk_transformer {
  name : string;
  namespace : string;
  sr : Q;
  hop_length : Z;
}.

(** The body of [for column, event in zip(values, frames)] in
    [encode_events]: the first index out of bounds aborts the loop. *)
Fixpoint events_loop {dt} (target : list (list (elem dt)))
    (pairs : list (list (elem dt) * Z)) : result (list (list (elem dt))) :=
  match pairs with
  | [] => Ok target
  | (column, event) :: rest =>
      target' ← iadd_index target event column;
      events_loop target' rest
  end.

(** The body of [for column, interval in zip(values, frames)] in
    [encode_intervals]. *)
Definition intervals_loop {dt} (target : list (list (elem dt)))
    (pairs : list (list (elem dt) * (Z * Z))) : list (list (elem dt)) :=
  foldl (λ tgt p, iadd_slice tgt p.2.1 p.2.2 p.1) target pairs.

Section Encoders.

(** [librosa.time_to_frames(t, sr=, hop_length=)] on one time value.  The
    routine belongs to an external library; the encoders are verified for
    every such function. *)
Variable time_to_frames : Q → Q → Z → Z.

Definition frame_of (self : BaseTaskTransformer) (t : Q) : Z :=
  time_to_frames t (sr self) (hop_length self).

Definition encode_events {sdt} (self : BaseTaskTransformer) (duration : Q)
    (events : list Q) (values : ndarray sdt) (dt : dtype)
  : result (ndarray dt) :=
  let frames := map (frame_of self) events in
  let n_total := frame_of self duration in
  target ← np_full dt n_total (shape1 values) (fill_value dt);
  let values := astype dt values in
  target ← events_loop target (zip (rows values) frames);
  Ok (mk_ndarray (shape1 values) target).

Definition encode_intervals {sdt} (self : BaseTaskTransformer) (duration : Q)
    (intervals : list (Q * Q)) (values : ndarray sdt) (dt : dtype)
  : result (ndarray dt) :=
  let frames := map (λ iv, (frame_of self iv.1, frame_of self iv.2)) intervals in
  let n_total := frame_of self duration in
  let values := astype dt values in
  target ← np_full dt n_total (shape1 values) (fill_value dt);
  let target := intervals_loop target (zip (rows values) frames) in
  Ok (mk_ndarray (shape1 values) target).

End Encoders.

(** *** JAMS annotations (external library, data only) *)

(** One row of [ann.data]: onset time, duration and value.  Beat values are
    numbers or null. *)
Record Observation : Type := mk_observation {
  obs_time : Q;
  obs_duration : Q;
  obs_value : option Q;
}.

Record Annotation : Type := mk_annotation {
  ann_namespace : string;
  ann_time : option Q;
  ann_duration : option Q;
  ann_data : list Observation;
}.

Record JAMS : Type := mk_jams {
  annotations : list Annotation;
  file_metadata_duration : Q;
}.

(** [ann.data.to_interval_values()]. *)
Definition to_interval_values (data : list Observation)
  : list (Q * Q) * list (option Q) :=
  (map (λ o, (obs_time o, (obs_time o + obs_duration o)%Q)) data,
   map obs_value data).

(** *** Output records *)

Inductive field_value : Type :=
  | Array (dt : dtype) (a : ndarray dt)
  | Flag (b : bool)
  | Valid (start stop : Z).

(** [BaseTaskTransformer.empty]: the [duration] argument is not used. *)
Definition empty (self : BaseTaskTransformer) (duration : Q) : Annotation :=
  mk_annotation (namespace self) (Some 0%Q) (Some 0%Q) [].

Section Transform.

Variable time_to_frames : Q → Q → Z → Z.

(** [jams.nsconvert.convert(ann, namespace)] and [jam.search] applied to
    the query: external. *)
Variable convert : Annotation → string → result Annotation.
Variable Query : Type.
Variable search : JAMS → Query → list Annotation.

(** The subclass hook [self.transform_annotation(ann, duration)]. *)
Variable transform_annotation :
  BaseTaskTransformer → Annotation → Q → result (gmap string field_value).

(** [Scope.merge] ([pumpp/base.py], not part of the sources at hand). *)
Variable merge :
  BaseTaskTransformer → list (gmap string field_value) →
  result (gmap string field_value).

(** The first loop of [transform]: only [jams.NamespaceError] is caught. *)
Fixpoint convert_all (self : BaseTaskTransformer) (results : list Annotation)
  : result (list Annotation) :=
  match results with
  | [] => Ok []
  | ann :: rest =>
      match convert ann (namespace self) with
      | Ok a => anns ← convert_all self rest; Ok (a :: anns)
      | Raise NamespaceError => convert_all self rest
      | Raise e => Raise e
      end
  end.

Definition valid_window (ann : Annotation) (duration : Q) : Q * Q :=
  match ann_time ann, ann_duration ann with
  | Some t, Some d => (t, (t + d)%Q)
  | _, _ => (0%Q, duration)
  end.

(** The second loop of [transform]. *)
Fixpoint apply_all (self : BaseTaskTransformer) (anns : list Annotation)
    (duration : Q) : result (list (gmap string field_value)) :=
  match anns with
  | [] => Ok []
  | ann :: rest =>
      r ← transform_annotation self ann duration;
      let valid := valid_window ann duration in
      let r := <["_valid" := Valid (frame_of time_to_frames self valid.1)
                                   (frame_of time_to_frames self valid.2)]> r in
      rs ← apply_all self rest duration;
      Ok (r :: rs)
  end.

(** [transform] up to, and without, the final [self.merge(results)]. *)
Definition transform_results (self : BaseTaskTransformer) (jam : JAMS)
    (query : option Query) : result (list (gmap string field_value)) :=
  let results :=
    match query with
    | Some q => search jam q
    | None => annotations jam
    end in
  anns ← convert_all self results;
  let duration := file_metadata_duration jam in
  let anns := match anns with [] => [empty self duration] | _ => anns end in
  apply_all self anns duration.

Definition transform (self : BaseTaskTransformer) (jam : JAMS)
    (query : option Query) : result (gmap string field_value) :=
  results ← transform_results self jam query;
  merge self results.

End Transform.

(** ** pumpp/task/event.py *)

(** [np.ones((n, 1))] and [np.zeros((0, 1))]. *)
Definition np_ones (n : nat) : ndarray np_float :=
  @mk_ndarray np_float 1 (replicate n [Fin 1%Q]).

Definition np_zeros_0_1 : ndarray np_float := @mk_ndarray np_float 1 [].

(** [values == 1] on one annotation value. *)
Definition value_eq_1 (v : option Q) : bool :=
  match v with
  | Some q => Qeq_bool q 1
  | None => false
  end.

(** Boolean-mask indexing [a[idx]]. *)
Definition mask_index {A} (a : list A) (idx : list bool) : list A :=
  map fst (filter (λ p, snd p = true) (zip a idx)).

Section BeatTransformer.

Variable time_to_frames : Q → Q → Z → Z.

(** [BeatTransformer.transform_annotation]. *)
Definition transform_annotation (self : BaseTaskTransformer)
    (ann : Annotation) (duration : Q) : result (gmap string field_value) :=
  let '(intervals, values) := to_interval_values (ann_data ann) in
  let beat_events := map fst intervals in
  let beat_labels := np_ones (length beat_events) in
  let idx := map value_eq_1 values in
  let '(downbeat_events, downbeat_labels, mask_downbeat) :=
    if existsb id idx
    then (mask_index beat_events idx,
          np_ones (length (mask_index beat_events idx)), true)
    else ([], np_zeros_0_1, false) in
  target_beat ←
    encode_events time_to_frames self duration beat_events beat_labels np_bool;
  target_downbeat ←
    encode_events time_to_frames self duration downbeat_events
                  downbeat_labels np_bool;
  Ok (<["beat" := Array np_bool target_beat]>
      (<["downbeat" := Array np_bool target_downbeat]>
      (<["mask_downbeat" := Flag mask_downbeat]> ∅))).

End BeatTransformer.

(** ** The field schema and the merge of per-annotation records *)

#[export] Instance dtype_eq_dec : EqDecision dtype.
Proof. solve_decision. Defined.

(** A field descriptor: a shape template whose dynamic time dimension is
    [None], and an element type. *)
Record Field : Type := mk_field {
  field_shape : list (option nat);
  field_dtype : dtype;
}.

(** Modelled from the spec: [Scope.register] ([pumpp/base.py] is not part of
    the sources at hand).  Adds a field and fails with [DuplicateFieldError]
    if the name exists. *)
Definition register (field : string) (shape : list (option nat))
    (dt : dtype) (fields : gmap string Field) : result (gmap string Field) :=
  match fields !! field with
  | Some _ => Raise DuplicateFieldError
  | None => Ok (<[field := mk_field shape dt]> fields)
  end.

(** Modelled from the spec: [Scope.pop].  Removes a field and returns its
    prior descriptor; fails with [UnknownFieldError] if absent. *)
Definition pop (field : string) (fields : gmap string Field)
  : result (Field * gmap string Field) :=
  match fields !! field with
  | Some d => Ok (d, delete field fields)
  | None => Raise UnknownFieldError
  end.

(** Element-wise sum of two arrays of one dtype and shape. *)
Definition array_add {dt} (a b : ndarray dt) : ndarray dt :=
  mk_ndarray (shape1 a) (zip_with row_iadd (rows a) (rows b)).

(** Modelled from the spec: the combination rule of [Scope.merge] on one
    key.  Field arrays add element-wise (boolean flags are boolean fields, so
    they add as booleans), validity windows take the union span.  Fields of
    one producer share their dtype; a pair that does not is left at its
    first value. *)
Definition merge_value (x y : field_value) : field_value :=
  match x, y with
  | Array dt1 a, Array dt2 b =>
      match decide (dt2 = dt1) with
      | left e => Array dt1 (array_add a (eq_rect dt2 ndarray b dt1 e))
      | right _ => x
      end
  | Flag a, Flag b => Flag (a || b)
  | Valid s1 e1, Valid s2 e2 => Valid (Z.min s1 s2) (Z.max e1 e2)
  | _, _ => x
  end.

(** Modelled from the spec: the key prefix, the producer's name and a
    separator. *)
Definition scope (self : BaseTaskTransformer) (key : string) : string :=
  name self +:+ "/" +:+ key.

(** Modelled from the spec: [Scope.merge].  The per-annotation records are
    combined key by key, then every key is prefixed. *)
Definition merge (self : BaseTaskTransformer)
    (data : list (gmap string field_value))
  : result (gmap string field_value) :=
  match data with
  | [] => Ok ∅
  | r :: rs =>
      Ok (kmap (scope self)
            (foldl (union_with (λ x y, Some (merge_value x y))) r rs))
  end.

(** ** The canonical time-to-frame function *)

(** Modelled from the spec: [librosa.time_to_frames] is an external routine
    and the spec leaves its rounding rule open (size
    floor_or_round(track_duration * sr / hop_length)).  Both readings are
    given; times and rates are exact rationals. *)
Definition time_to_frames_floor (t sr : Q) (hop_length : Z) : Z :=
  Qfloor (t * sr / inject_Z hop_length).

(** Rounding to the nearest integer, ties to even. *)
Definition Qround_half_even (q : Q) : Z :=
  let f := Qfloor q in
  match ((q - inject_Z f) ?= (1 # 2))%Q with
  | Lt => f
  | Gt => f + 1
  | Eq => if Z.even f then f else f + 1
  end.

Definition time_to_frames_round (t sr : Q) (hop_length : Z) : Z :=
  Qround_half_even (t * sr / inject_Z hop_length).

(** ** pumpp/feature/fft.py *)

Module FFT.

Record STFT : Type := mk_STFT {
  name : string;
  sr : Q;
  hop_length : Z;
  n_fft : Z;
  fields : gmap string Field;
}.

(** Assignment to [self.fields]. *)
Definition with_fields (self : STFT) (fs : gmap string Field) : STFT :=
  mk_STFT (name self) (sr self) (hop_length self) (n_fft self) fs.

(** [d.pop(key)] on a Python dict. *)
Definition dict_pop (key : string) (d : gmap string field_value)
  : result (field_value * gmap string field_value) :=
  match d !! key with
  | Some v => Ok (v, delete key d)
  | None => Raise KeyError
  end.

(** [STFT.__init__].  The parent [FeatureExtractor.__init__] is modelled
    from the spec: it records the name and the rates and starts from an
    empty field schema. *)
Definition STFT_init (name : string) (sr : Q) (hop_length n_fft : Z)
  : result STFT :=
  let bins := Z.to_nat (1 + n_fft / 2) in
  fs ← register "mag" [None; Some bins] np_float ∅;
  fs ← register "phase" [None; Some bins] np_float fs;
  Ok (mk_STFT name sr hop_length n_fft fs).

(** [STFTPhaseDiff.__init__]. *)
Definition STFTPhaseDiff_init (name : string) (sr : Q)
    (hop_length n_fft : Z) : result STFT :=
  self ← STFT_init name sr hop_length n_fft;
  '(phase_field, fs) ← pop "phase" (fields self);
  fs ← register "dphase" (field_shape phase_field)
                (field_dtype phase_field) fs;
  Ok (with_fields self fs).

(** [STFTMag.__init__]. *)
Definition STFTMag_init (name : string) (sr : Q) (hop_length n_fft : Z)
  : result STFT :=
  self ← STFT_init name sr hop_length n_fft;
  '(_, fs) ← pop "phase" (fields self);
  Ok (with_fields self fs).

Section TransformAudio.

Variable Audio : Type.

(** [librosa.magphase(librosa.stft(y, hop_length=, n_fft=, dtype=))]
    followed by the transposition of the magnitude and by
    [np.angle] of the transposed phase: external, and free to fail. *)
Variable magphase_stft :
  Audio → Z → Z → result (ndarray np_float * ndarray np_float).

(** [phase_diff(phase, axis=0)] ([pumpp/feature/base.py], not part of
    the sources at hand). *)
Variable phase_diff : field_value → field_value.

(** [STFT.transform_audio]. *)
Definition STFT_transform_audio (self : STFT) (y : Audio)
  : result (gmap string field_value) :=
  '(mag, phase) ← magphase_stft y (hop_length self) (n_fft self);
  Ok (<["mag" := Array np_float mag]>
      (<["phase" := Array np_float phase]> ∅)).

(** [STFTPhaseDiff.transform_audio]. *)
Definition STFTPhaseDiff_transform_audio (self : STFT) (y : Audio)
  : result (gmap string field_value) :=
  data ← STFT_transform_audio self y;
  '(phase, data) ← dict_pop "phase" data;
  Ok (<["dphase" := phase_diff phase]> data).

(** [STFTMag.transform_audio]. *)
Definition STFTMag_transform_audio (self : STFT) (y : Audio)
  : result (gmap string field_value) :=
  data ← STFT_transform_audio self y;
  '(_, data) ← dict_pop "phase" data;
  Ok data.

End TransformAudio.

End FFT.

(** ** pumpp/feature/cqt.py *)

Module Cqt.

Record CQT : Type := mk_CQT {
  name : string;
  sr : Q;
  hop_length : Z;
  n_octaves : Z;
  over_sample : Z;
  fmin : Q;
  fields : gmap string Field;
}.

(** Assignment to [self.fields]. *)
Definition with_fields (self : CQT) (fs : gmap string Field) : CQT :=
  mk_CQT (name self) (sr self) (hop_length self) (n_octaves self)
         (over_sample self) (fmin self) fs.

(** [CQT.__init__].  [C1_hz] stands for [note_to_hz('C1')], a value of the
    external library; the parent constructor is as for [STFT]. *)
Definition CQT_init (C1_hz : Q) (name : string) (sr : Q)
    (hop_length n_octaves over_sample : Z) (fmin : option Q) : result CQT :=
  let fmin := match fmin with None => C1_hz | Some f => f end in
  let n_bins := n_octaves * 12 * over_sample in
  fs ← register "mag" [None; Some (Z.to_nat n_bins)] np_float ∅;
  fs ← register "phase" [None; Some (Z.to_nat n_bins)] np_float fs;
  Ok (mk_CQT name sr hop_length n_octaves over_sample fmin fs).

(** [CQTMag.__init__]. *)
Definition CQTMag_init (C1_hz : Q) (name : string) (sr : Q)
    (hop_length n_octaves over_sample : Z) (fmin : option Q) : result CQT :=
  self ← CQT_init C1_hz name sr hop_length n_octaves over_sample fmin;
  '(_, fs) ← pop "phase" (fields self);
  Ok (with_fields self fs).

(** [CQTPhaseDiff.__init__]. *)
Definition CQTPhaseDiff_init (C1_hz : Q) (name : string) (sr : Q)
    (hop_length n_octaves over_sample : Z) (fmin : option Q) : result CQT :=
  self ← CQT_init C1_hz name sr hop_length n_octaves over_sample fmin;
  '(phase_field, fs) ← pop "phase" (fields self);
  fs ← register "dphase" (field_shape phase_field)
                (field_dtype phase_field) fs;
  Ok (with_fields self fs).

Section TransformAudio.

Variable Audio : Type.

(** [magphase(cqt(y=, sr=, hop_length=, fmin=, n_bins=, bins_per_octave=,
    real=False))], with the magnitude transposed and the phase passed
    through [np.angle] and transposed: external, and free to fail.  The
    arguments are, in this order, [y], [sr], [hop_length], [fmin], [n_bins]
    and [bins_per_octave]. *)
Variable magphase_cqt :
  Audio → Q → Z → Q → Z → Z → result (ndarray np_float * ndarray np_float).

(** [phase_diff(phase, axis=0)], as for the STFT. *)
Variable phase_diff : field_value → field_value.

(** [CQT.transform_audio]. *)
Definition CQT_transform_audio (self : CQT) (y : Audio)
  : result (gmap string field_value) :=
  '(cqtm, phase) ←
    magphase_cqt y (sr self) (hop_length self) (fmin self)
                 (n_octaves self * over_sample self * 12)
                 (over_sample self * 12);
  Ok (<["mag" := Array np_float (astype np_float cqtm)]>
      (<["phase" := Array np_float (astype np_float phase)]> ∅)).

(** [CQTMag.transform_audio]. *)
Definition CQTMag_transform_audio (self : CQT) (y : Audio)
  : result (gmap string field_value) :=
  data ← CQT_transform_audio self y;
  '(_, data) ← FFT.dict_pop "phase" data;
  Ok data.

(** [CQTPhaseDiff.transform_audio]. *)
Definition CQTPhaseDiff_transform_audio (self : CQT) (y : Audio)
  : result (gmap string field_value) :=
  data ← CQT_transform_audio self y;
  '(phase, data) ← FFT.dict_pop "phase" data;
  Ok (<["dphase" := phase_diff phase]> data).

End TransformAudio.

End Cqt.

(** ** pumpp/feature/mel.py *)

Module MelSpec.

Record Mel : Type := mk_Mel {
  name : string;
  sr : Q;
  hop_length : Z;
  n_fft : Z;
  n_mels : Z;
  fmax : option Q;
  fields : gmap string Field;
}.

(** [Mel.__init__]. *)
Definition Mel_init (name : string) (sr : Q) (hop_length n_fft n_mels : Z)
    (fmax : option Q) : result Mel :=
  fs ← register "mag" [None; Some (Z.to_nat n_mels)] np_float ∅;
  Ok (mk_Mel name sr hop_length n_fft n_mels fmax fs).

Section TransformAudio.

Variable Audio : Type.

(** [np.sqrt(melspectrogram(y=, sr=, n_fft=, hop_length=, n_mels=, fmax=))],
    transposed: external, and free to fail.  The arguments are [y], [sr],
    [n_fft], [hop_length], [n_mels] and [fmax]. *)
Variable sqrt_melspectrogram :
  Audio → Q → Z → Z → Z → option Q → result (ndarray np_float).

(** [Mel.transform_audio]. *)
Definition Mel_transform_audio (self : Mel) (y : Audio)
  : result (gmap string field_value) :=
  mel ← sqrt_melspectrogram y (sr self) (n_fft self) (hop_length self)
                            (n_mels self) (fmax self);
  Ok (<["mag" := Array np_float (astype np_float mel)]> ∅).

End TransformAudio.

End MelSpec.

(** ** pumpp/feature/rhythm.py *)

Module Rhythm.

Record Tempogram : Type := mk_Tempogram {
  name : string;
  sr : Q;
  hop_length : Z;
  win_length : Z;
  fields : gmap string Field;
}.

(** A [TempoScale] object: a [Tempogram] with the attribute [n_fmt]. *)
Record TempoScale : Type := mk_TempoScale {
  base : Tempogram;
  n_fmt : Z;
}.

(** Assignment to [self.fields]. *)
Definition with_fields (self : Tempogram) (fs : gmap string Field)
  : Tempogram :=
  mk_Tempogram (name self) (sr self) (hop_length self) (win_length self) fs.

(** [Tempogram.__init__]. *)
Definition Tempogram_init (name : string) (sr : Q)
    (hop_length win_length : Z) : result Tempogram :=
  fs ← register "tempogram" [None; Some (Z.to_nat win_length)] np_float ∅;
  Ok (mk_Tempogram name sr hop_length win_length fs).

(** [TempoScale.__init__]. *)
Definition TempoScale_init (name : string) (sr : Q)
    (hop_length win_length n_fmt : Z) : result TempoScale :=
  self ← Tempogram_init name sr hop_length win_length;
  '(_, fs) ← pop "tempogram" (fields self);
  fs ← register "temposcale" [None; Some (Z.to_nat (1 + n_fmt / 2))]
                np_float fs;
  Ok (mk_TempoScale (with_fields self fs) n_fmt).

Section TransformAudio.

Variable Audio : Type.

(** [tempogram(y=, sr=, hop_length=, win_length=)], transposed: external,
    and free to fail. *)
Variable tempogram : Audio → Q → Z → Z → result (ndarray np_float).

(** [np.abs(fmt(x, axis=1, n_fmt=))] cast to the field dtype: external. *)
Variable abs_fmt : field_value → Z → field_value.

(** [Tempogram.transform_audio]. *)
Definition Tempogram_transform_audio (self : Tempogram) (y : Audio)
  : result (gmap string field_value) :=
  tgram ← tempogram y (sr self) (hop_length self) (win_length self);
  Ok (<["tempogram" := Array np_float (astype np_float tgram)]> ∅).

(** [TempoScale.transform_audio]. *)
Definition TempoScale_transform_audio (self : TempoScale) (y : Audio)
  : result (gmap string field_value) :=
  data ← Tempogram_transform_audio (base self) y;
  '(tgram, data) ← FFT.dict_pop "tempogram" data;
  Ok (<["temposcale" := abs_fmt tgram (n_fmt self)]> data).

End TransformAudio.

End Rhythm.

(** ** Vocabulary of the statements *)

(** Event frame [e] lands on row [f] of an axis of length [n]. *)
Definition hits (n : nat) (e : Z) (f : nat) : bool :=
  match index_axis n e with
  | Ok k => bool_decide (k = f)
  | Raise _ => false
  end.

(** A row of [m] fill values, and an array of [n] such rows. *)
Definition fill_row (dt : dtype) (m : nat) : list (elem dt) :=
  replicate m (fill_value dt).

Definition fill_array (dt : dtype) (n : Z) (m : nat) : ndarray dt :=
  mk_ndarray m (replicate (Z.to_nat n) (fill_row dt m)).

(** Every entry is not-a-number. *)
Definition rows_nan {dt} (t : list (list (elem dt))) : Prop :=
  Forall (Forall (λ x, np_isnan dt x = true)) t.

Definition all_nan {dt} (a : ndarray dt) : Prop := rows_nan (rows a).

(** A stand-in for [jams.nsconvert.convert] that converts an annotation to
    its own namespace only. *)
Definition nsconvert_same (ann : Annotation) (ns : string)
  : result Annotation :=
  if String.eqb (ann_namespace ann) ns then Ok ann else Raise NamespaceError.

(** *** The scenarios of the specification *)

(** A transformer at [sr=1000], [hop_length=100]: ten frames per second. *)
Definition ten_fps : BaseTaskTransformer :=
  mk_transformer "task" "tag_open" 1000 100.

(** The intervals [0.0, 1.0) and [0.5, 1.5), both with value 1. *)
Definition overlapping_intervals : list (Q * Q) :=
  [(0, 1); (1 # 2, 3 # 2)]%Q.

Definition two_ones : ndarray (np_int 64) :=
  @mk_ndarray (np_int 64) 1 [[1]; [1]].

(** The outcome the specification describes for the two intervals over a
    two-second track: [inner] on frames 5-9, [outer] on frames 0-4 and
    10-14, [fill] from frame 15 on. *)
Definition overlap_outcome (dt : dtype) (inner outer fill : elem dt) : Prop :=
  encode_intervals time_to_frames_floor ten_fps 2 overlapping_intervals
                   two_ones dt
  = Ok (mk_ndarray 1
          (replicate 5 [outer] ++ replicate 5 [inner]
           ++ replicate 5 [outer] ++ replicate 5 [fill])).

(** The numbers the specification puts on that outcome: 2 inside the
    overlap, 1 around it, the fill value elsewhere. *)
Definition overlap_sums_to_two (dt : dtype) : Prop :=
  ∃ inner outer,
    overlap_outcome dt inner outer (fill_value dt)
    ∧ to_Z dt inner = 2 ∧ to_Z dt outer = 1.

(** The fixed-width integer dtypes of numpy. *)
Definition integer_dtypes : list dtype :=
  [np_int 8; np_int 16; np_int 32; np_int 64;
   np_uint 8; np_uint 16; np_uint 32; np_uint 64].

(** The beat transformer at its default rates. *)
Definition beat_22050_512 : BaseTaskTransformer :=
  mk_transformer "beat" "beat" 22050 512.

(** A beat annotation with one onset at [t = 1.0] carrying [value], and the
    time range [time], [duration]. *)
Definition one_beat (time duration value : option Q) : Annotation :=
  mk_annotation "beat" time duration [mk_observation 1 0 value].

(** A beat annotation with a downbeat at [t = 1.0] and a plain beat at
    [t = 2.0]. *)
Definition two_beats : Annotation :=
  mk_annotation "beat" None None
    [mk_observation 1 0 (Some 1%Q); mk_observation 2 0 (Some 2%Q)].

(** An annotation of a namespace that does not convert to "beat". *)
Definition chord_annotation : Annotation :=
  mk_annotation "chord" None None [mk_observation 0 5 None].

(** [transform] of the beat transformer over the stand-in converter and the
    modelled merge, without a query. *)
Definition beat_transform (time_to_frames : Q → Q → Z → Z)
    (self : BaseTaskTransformer) (jam : JAMS)
  : result (gmap string field_value) :=
  transform time_to_frames nsconvert_same unit (λ _ _, [])
            (transform_annotation time_to_frames) merge self jam None.

(** A boolean column array of [n] rows, true exactly on the rows in
    [ones]. *)
Definition indicator (n : nat) (ones : list nat) : ndarray np_bool :=
  @mk_ndarray np_bool 1
    (map (λ f, [bool_decide (f ∈ ones)]) (seq 0 n)).

(** The record attached to an annotation without observations whose time
    range is [time=0], [duration=0]. *)
Definition unobserved_record (time_to_frames : Q → Q → Z → Z)
    (self : BaseTaskTransformer) (duration : Q) : gmap string field_value :=
  let n := frame_of time_to_frames self duration in
  <["_valid" := Valid (frame_of time_to_frames self 0)
                      (frame_of time_to_frames self (0 + 0))]>
  (<["beat" := Array np_bool (fill_array np_bool n 1)]>
  (<["downbeat" := Array np_bool (fill_array np_bool n 1)]>
  (<["mask_downbeat" := Flag false]> ∅))).

(** The per-annotation record of the beat-only scenario: a 5.0 s track at
    [sr=22050], [hop_length=512] with one beat at [t = 1.0]. *)
Definition beat_only_record : gmap string field_value :=
  <["_valid" := Valid 0 215]>
  (<["beat" := Array np_bool (indicator 215 [43%nat])]>
  (<["downbeat" := Array np_bool (indicator 215 [])]>
  (<["mask_downbeat" := Flag false]> ∅))).

(** The same record after the merge: every key carries the prefix. *)
Definition beat_only_output : gmap string field_value :=
  <["beat/_valid" := Valid 0 215]>
  (<["beat/beat" := Array np_bool (indicator 215 [43%nat])]>
  (<["beat/downbeat" := Array np_bool (indicator 215 [])]>
  (<["beat/mask_downbeat" := Flag false]> ∅))).

(** *** Vocabulary of the further properties *)

(** The pairs the loop of [encode_events] runs over: the cast value rows
    zipped with the frames of the events. *)
Definition event_pairs (time_to_frames : Q → Q → Z → Z) {sdt}
    (self : BaseTaskTransformer) (events : list Q) (values : ndarray sdt)
    (dt : dtype) : list (list (elem dt) * Z) :=
  zip (rows (astype dt values)) (map (frame_of time_to_frames self) events).

(** The pairs the loop of [encode_intervals] runs over. *)
Definition interval_pairs (time_to_frames : Q → Q → Z → Z) {sdt}
    (self : BaseTaskTransformer) (intervals : list (Q * Q))
    (values : ndarray sdt) (dt : dtype) : list (list (elem dt) * (Z * Z)) :=
  zip (rows (astype dt values))
      (map (λ iv, (frame_of time_to_frames self iv.1,
                   frame_of time_to_frames self iv.2)) intervals).

(** The value rows of the events that land on row [f], in loop order. *)
Definition hitting_columns {dt} (n : nat) (pairs : list (list (elem dt) * Z))
    (f : nat) : list (list (elem dt)) :=
  map fst (filter (λ p, hits n p.2 f = true) pairs).

(** The value rows of the intervals whose slice holds row [f], in loop
    order. *)
Definition covering_columns {dt} (n : nat)
    (pairs : list (list (elem dt) * (Z * Z))) (f : nat)
  : list (list (elem dt)) :=
  map fst (filter (λ p, in_slice n p.2.1 p.2.2 f = true) pairs).

(** The frame index [e] is within [-n, n). *)
Definition in_range (n : nat) (e : Z) : bool := is_ok (index_axis n e).

(** The dtypes whose addition is exact: booleans and fixed-width integers. *)
Definition is_exact (dt : dtype) : bool :=
  match dt with
  | np_bool | np_int _ | np_uint _ => true
  | np_float | np_complex => false
  end.

(** The keys of the per-annotation records of the beat transformer. *)
Definition beat_keys : gset string :=
  {["beat"; "downbeat"; "mask_downbeat"; "_valid"]}.

(** The candidates [transform] looks at. *)
Definition candidates {Query : Type} (search : JAMS → Query → list Annotation)
    (jam : JAMS) (query : option Query) : list Annotation :=
  match query with
  | Some q => search jam q
  | None => annotations jam
  end.

(** The annotations [transform] applies the hook to, given the converted
    candidates. *)
Definition or_empty (self : BaseTaskTransformer) (duration : Q)
    (anns : list Annotation) : list Annotation :=
  match anns with
  | [] => [empty self duration]
  | _ => anns
  end.

(** The candidates that convert to the namespace of the task, converted, in
    their order. *)
Definition converted (convert : Annotation → string → result Annotation)
    (self : BaseTaskTransformer) (l : list Annotation) : list Annotation :=
  omap (λ a, match convert a (namespace self) with
             | Ok a' => Some a'
             | Raise _ => None
             end) l.

(** The conversion of a candidate either returns or raises
    [NamespaceError]. *)
Definition converts_or_skips
    (convert : Annotation → string → result Annotation)
    (self : BaseTaskTransformer) (a : Annotation) : Prop :=
  ∀ e, convert a (namespace self) = Raise e → e = NamespaceError.

(** The record [transform] keeps of an annotation: the record of the hook
    with the frames of the validity window under [_valid]. *)
Definition with_valid (time_to_frames : Q → Q → Z → Z)
    (self : BaseTaskTransformer) (ann : Annotation) (duration : Q)
    (r : gmap string field_value) : gmap string field_value :=
  <["_valid" := Valid (frame_of time_to_frames self
                                (valid_window ann duration).1)
                      (frame_of time_to_frames self
                                (valid_window ann duration).2)]> r.

(** [BeatTransformer.__init__]: the transformer, of namespace [beat], and
    the fields it registers.  [BaseTaskTransformer.__init__] records the
    attributes; its call [jams.schema.is_dense(namespace)] is external and
    returns for [beat], a namespace of the library.  The field schema starts
    empty, as for the feature extractors. *)
Definition BeatTransformer_init (name : string) (sr : Q) (hop_length : Z)
  : result (BaseTaskTransformer * gmap string Field) :=
  fs ← register "beat" [None] np_bool ∅;
  fs ← register "downbeat" [None] np_bool fs;
  fs ← register "mask_downbeat" [Some 1%nat] np_bool fs;
  Ok (mk_transformer name "beat" sr hop_length, fs).

(** A returned mapping conforms to a field schema: it has the keys of the
    schema and holds, under each of them, an array of the declared dtype
    whose second dimension is the declared one. *)
Definition conforms (fields : gmap string Field)
    (data : gmap string field_value) : Prop :=
  dom data = dom fields
  ∧ map_Forall (λ k d, ∃ a, data !! k = Some (Array (field_dtype d) a)
                            ∧ field_shape d = [None; Some (shape1 a)])
               fields.

(** A beat transformer at one frame per second. *)
Definition one_fps : BaseTaskTransformer := mk_transformer "beat" "beat" 1 1.

(** The record of [two_beats] over a 3 s track at one frame per second. *)
Definition two_beats_record : gmap string field_value :=
  <["beat" := Array np_bool (@mk_ndarray np_bool 1
                               [[false]; [true]; [true]])]>
  (<["downbeat" := Array np_bool (@mk_ndarray np_bool 1
                                    [[false]; [true]; [false]])]>
  (<["mask_downbeat" := Flag true]> ∅)).

(** *** What the external routines return *)

(** The magnitude and phase of [librosa.stft] have [1 + n_fft // 2]
    frequency bins. *)
Definition stft_bins {Audio : Type}
    (magphase_stft :
       Audio → Z → Z → result (ndarray np_float * ndarray np_float)) : Prop :=
  ∀ y hop n mag phase,
    magphase_stft y hop n = Ok (mag, phase) →
    shape1 mag = Z.to_nat (1 + n / 2) ∧ shape1 phase = Z.to_nat (1 + n / 2).

(** The magnitude and phase of [librosa.cqt] have [n_bins] bins. *)
Definition cqt_bins {Audio : Type}
    (magphase_cqt :
       Audio → Q → Z → Q → Z → Z →
       result (ndarray np_float * ndarray np_float)) : Prop :=
  ∀ y sr hop fmin n_bins bins_per_octave mag phase,
    magphase_cqt y sr hop fmin n_bins bins_per_octave = Ok (mag, phase) →
    shape1 mag = Z.to_nat n_bins ∧ shape1 phase = Z.to_nat n_bins.

(** The Mel spectrogram has [n_mels] bands. *)
Definition mel_bands {Audio : Type}
    (sqrt_melspectrogram :
       Audio → Q → Z → Z → Z → option Q → result (ndarray np_float))
  : Prop :=
  ∀ y sr n_fft hop n_mels fmax mel,
    sqrt_melspectrogram y sr n_fft hop n_mels fmax = Ok mel →
    shape1 mel = Z.to_nat n_mels.

(** The tempogram has [win_length] lags. *)
Definition tempogram_lags {Audio : Type}
    (tempogram : Audio → Q → Z → Z → result (ndarray np_float)) : Prop :=
  ∀ y sr hop win_length tgram,
    tempogram y sr hop win_length = Ok tgram →
    shape1 tgram = Z.to_nat win_length.

(** The scale transform of a real array keeps [1 + n_fmt // 2]
    coefficients, cast to the field dtype. *)
Definition fmt_coefficients (abs_fmt : field_value → Z → field_value)
  : Prop :=
  ∀ dt (a : ndarray dt) n,
    ∃ b, abs_fmt (Array dt a) n = Array np_float b
         ∧ shape1 b = Z.to_nat (1 + n / 2).

(** The phase differential along the time axis keeps dtype and shape. *)
Definition phase_diff_keeps_shape (phase_diff : field_value → field_value)
  : Prop :=
  ∀ dt (a : ndarray dt),
    ∃ b, phase_diff (Array dt a) = Array dt b ∧ shape1 b = shape1 a.

(** ** Arithmetic of the dtypes *)

Lemma wrap_signed_0 w : wrap_signed w 0 = 0.
Proof.
  unfold wrap_signed. rewrite Z.add_0_l.
  assert (H : 0 < 2 ^ (Z.pos w - 1)) by (apply Z.pow_pos_nonneg; lia).
  assert (H2 : 2 ^ Z.pos w = 2 * 2 ^ (Z.pos w - 1)).
  { rewrite <- Z.pow_succ_r by lia. f_equal. lia. }
  rewrite Z.mod_small by lia. lia.
Qed.

Lemma wrap_unsigned_0 w : wrap_unsigned w 0 = 0.
Proof. unfold wrap_unsigned. apply Z.mod_0_l. apply Z.pow_nonzero; lia. Qed.

Lemma wrap_signed_add_l w a b :
  wrap_signed w (wrap_signed w a + b) = wrap_signed w (a + b).
Proof.
  unfold wrap_signed. f_equal.
  set (h := 2 ^ (Z.pos w - 1)). set (m := 2 ^ Z.pos w).
  replace ((a + h) mod m - h + b + h) with ((a + h) mod m + b) by lia.
  rewrite Zplus_mod_idemp_l. f_equal. lia.
Qed.

Lemma wrap_signed_add_r w a b :
  wrap_signed w (a + wrap_signed w b) = wrap_signed w (a + b).
Proof. rewrite Z.add_comm, wrap_signed_add_l. f_equal. lia. Qed.

Lemma wrap_unsigned_add_l w a b :
  wrap_unsigned w (wrap_unsigned w a + b) = wrap_unsigned w (a + b).
Proof. unfold wrap_unsigned. apply Zplus_mod_idemp_l. Qed.

Lemma wrap_unsigned_add_r w a b :
  wrap_unsigned w (a + wrap_unsigned w b) = wrap_unsigned w (a + b).
Proof. unfold wrap_unsigned. apply Zplus_mod_idemp_r. Qed.

Lemma fadd_fin_0_l a b :
  fadd (fadd (Fin 0) a) b = fadd (fadd (Fin 0) a) (fadd (Fin 0) b).
Proof.
  destruct a as [|a], b as [|b]; simpl; try reflexivity.
  f_equal. apply Qred_complete. rewrite !Qred_correct. ring.
Qed.

Lemma fadd_fin_0_idem a : fadd (Fin 0) (fadd (Fin 0) a) = fadd (Fin 0) a.
Proof.
  destruct a as [|a]; simpl; try reflexivity.
  f_equal. apply Qred_complete. rewrite !Qred_correct. ring.
Qed.

Lemma fadd_fin_0_r a : fadd (fadd (Fin 0) a) (Fin 0) = fadd (Fin 0) a.
Proof.
  destruct a as [|a]; simpl; try reflexivity.
  f_equal. apply Qred_complete. rewrite !Qred_correct. ring.
Qed.

Arguments fadd : simpl never.

(** Case analysis on a dtype, with the fill value evaluated. *)
Ltac fill_cases dt :=
  destruct dt; unfold fill_value; simpl;
  rewrite ?wrap_signed_0, ?wrap_unsigned_0; simpl.

(** The fill value is idempotent for the addition of its dtype. *)
Lemma add_fill_fill dt : add dt (fill_value dt) (fill_value dt) = fill_value dt.
Proof.
  fill_cases dt; rewrite ?wrap_signed_0, ?wrap_unsigned_0; reflexivity.
Qed.

Lemma add_fill_assoc dt (a b : elem dt) :
  add dt (add dt (fill_value dt) a) b
  = add dt (add dt (fill_value dt) a) (add dt (fill_value dt) b).
Proof.
  fill_cases dt;
    rewrite ?wrap_signed_add_r, ?wrap_unsigned_add_r, <- ?fadd_fin_0_l;
    reflexivity.
Qed.

Lemma add_fill_l_idem dt (b : elem dt) :
  add dt (fill_value dt) (add dt (fill_value dt) b) = add dt (fill_value dt) b.
Proof.
  fill_cases dt;
    rewrite ?wrap_signed_add_r, ?wrap_unsigned_add_r, ?fadd_fin_0_idem;
    reflexivity.
Qed.

Lemma add_fill_r_idem dt (a : elem dt) :
  add dt (add dt (fill_value dt) a) (fill_value dt) = add dt (fill_value dt) a.
Proof.
  fill_cases dt;
    rewrite ?orb_false_r, ?wrap_signed_add_l, ?wrap_unsigned_add_l,
      ?fadd_fin_0_r, ?Z.add_0_r;
    reflexivity.
Qed.

(** Adding onto a NaN entry of a floating or complex array leaves a NaN. *)
Lemma add_nan_l dt (x c : elem dt) :
  np_isnan dt x = true → np_isnan dt (add dt x c) = true.
Proof.
  destruct dt; simpl; try discriminate.
  - destruct x; [reflexivity | discriminate].
  - destruct x as [[|a] [|b]]; simpl; try discriminate; intros _;
      try reflexivity.
    destruct (fadd (Fin a) c.1); reflexivity.
Qed.

Lemma fill_value_nan dt :
  issubdtype_float dt || issubdtype_complex dt = true →
  np_isnan dt (fill_value dt) = true.
Proof. destruct dt; simpl; try discriminate; reflexivity. Qed.

(** ** The loops of the encoders *)

Lemma bind_Ok {A B} (r : result A) (k : A → result B) (b : B) :
  (r ≫= k) = Ok b ↔ ∃ a, r = Ok a ∧ k a = Ok b.
Proof.
  destruct r as [a|e]; simpl; split.
  - intros H. exists a. split; [reflexivity | exact H].
  - intros (a' & [= <-] & H). exact H.
  - discriminate.
  - intros (a' & [=] & _).
Qed.

Lemma np_full_nonneg dt n m v :
  0 ≤ n → np_full dt n m v = Ok (replicate (Z.to_nat n) (replicate m v)).
Proof.
  intros Hn. unfold np_full.
  destruct (Z.ltb_spec n 0); [lia | reflexivity].
Qed.

Lemma np_full_Ok dt n m v t :
  np_full dt n m v = Ok t →
  0 ≤ n ∧ t = replicate (Z.to_nat n) (replicate m v).
Proof.
  unfold np_full. destruct (Z.ltb_spec n 0); [discriminate |].
  intros [= <-]. split; [assumption | reflexivity].
Qed.

Lemma index_axis_lt n i k : index_axis n i = Ok k → (k < n)%nat.
Proof.
  unfold index_axis.
  destruct (Z.leb_spec 0 i), (Z.ltb_spec i (Z.of_nat n)); simpl;
    try (intros [= <-]; lia);
    destruct (Z.leb_spec (- Z.of_nat n) i), (Z.ltb_spec i 0); simpl;
    try discriminate; intros [= <-]; lia.
Qed.

Lemma index_axis_Raise n i e : index_axis n i = Raise e → e = IndexError.
Proof.
  unfold index_axis.
  destruct ((0 <=? i) && (i <? Z.of_nat n)); [discriminate |].
  destruct ((- Z.of_nat n <=? i) && (i <? 0)); [discriminate |].
  now intros [= <-].
Qed.

Lemma hits_true n e f : hits n e f = true ↔ index_axis n e = Ok f.
Proof.
  unfold hits. destruct (index_axis n e) as [k|]; [| split; discriminate].
  rewrite bool_decide_eq_true. split; [now intros -> | now intros [= ->]].
Qed.

Section Loops.

Context {dt : dtype}.
Implicit Types (t : list (list (elem dt))) (c : list (elem dt)).

Lemma iadd_index_length t e c t' :
  iadd_index t e c = Ok t' → length t' = length t.
Proof.
  unfold iadd_index. intros (k & _ & [= <-])%bind_Ok. apply length_alter.
Qed.

Lemma events_loop_length ps : ∀ t t',
  events_loop t ps = Ok t' → length t' = length t.
Proof.
  induction ps as [|[c e] ps IH]; simpl; intros t t'.
  - now intros [= <-].
  - intros (t1 & H1 & H2)%bind_Ok.
    rewrite (IH _ _ H2). eapply iadd_index_length, H1.
Qed.

Lemma iadd_index_unhit t e c t' f :
  iadd_index t e c = Ok t' → hits (length t) e f = false →
  t' !! f = t !! f.
Proof.
  unfold iadd_index. intros (k & Hk & [= <-])%bind_Ok Hf.
  apply list_lookup_alter_ne. intros ->.
  apply hits_true in Hk. congruence.
Qed.

(** A row no event lands on comes out of the loop as it went in. *)
Lemma events_loop_unhit ps : ∀ t t' f,
  events_loop t ps = Ok t' →
  Forall (λ p, hits (length t) p.2 f = false) ps →
  t' !! f = t !! f.
Proof.
  induction ps as [|[c e] ps IH]; simpl; intros t t' f.
  - now intros [= <-].
  - intros (t1 & H1 & H2)%bind_Ok Hall.
    apply Forall_cons in Hall as [He Hall]. simpl in He.
    rewrite (IH _ _ f H2).
    + eapply iadd_index_unhit; eassumption.
    + now rewrite (iadd_index_length _ _ _ _ H1).
Qed.

(** The loop fails exactly on an index outside [-n, n). *)
Lemma events_loop_in_range ps : ∀ t,
  Forall (λ p, is_ok (index_axis (length t) p.2) = true) ps →
  ∃ t', events_loop t ps = Ok t'.
Proof.
  induction ps as [|[c e] ps IH]; simpl; intros t Hall.
  - now exists t.
  - apply Forall_cons in Hall as [He Hall]. simpl in He.
    unfold iadd_index.
    destruct (index_axis (length t) e) as [k|] eqn:Hk; [| discriminate].
    simpl. apply IH. now rewrite length_alter.
Qed.

Lemma events_loop_Raise ps : ∀ t e,
  events_loop t ps = Raise e → e = IndexError.
Proof.
  induction ps as [|[c ev] ps IH]; simpl; intros t e; [discriminate |].
  unfold iadd_index.
  destruct (index_axis (length t) ev) as [k|e'] eqn:Hk; simpl.
  - apply IH.
  - intros [= <-]. eapply index_axis_Raise, Hk.
Qed.

Lemma events_loop_out_of_range ps : ∀ t,
  Exists (λ p, is_ok (index_axis (length t) p.2) = false) ps →
  events_loop t ps = Raise IndexError.
Proof.
  induction ps as [|[c e] ps IH]; simpl; intros t Hex.
  - now apply Exists_nil in Hex.
  - unfold iadd_index.
    destruct (index_axis (length t) e) as [k|e'] eqn:Hk; simpl.
    + apply Exists_cons in Hex as [He | Hex].
      * simpl in He. rewrite Hk in He. discriminate.
      * apply IH. now rewrite length_alter.
    + f_equal. eapply index_axis_Raise, Hk.
Qed.

Lemma length_iadd_slice t a b c : length (iadd_slice t a b c) = length t.
Proof. apply length_imap. Qed.

Lemma length_intervals_loop ps : ∀ t,
  length (intervals_loop t ps) = length t.
Proof.
  unfold intervals_loop.
  induction ps as [|p ps IH]; simpl; intros t; [reflexivity |].
  now rewrite IH, length_iadd_slice.
Qed.

Lemma iadd_slice_lookup t a b c f :
  iadd_slice t a b c !! f
  = (λ row, if in_slice (length t) a b f then row_iadd row c else row)
      <$> t !! f.
Proof. unfold iadd_slice. apply list_lookup_imap. Qed.

(** A row outside every slice comes out of the loop as it went in. *)
Lemma intervals_loop_outside ps : ∀ t f,
  Forall (λ p, in_slice (length t) p.2.1 p.2.2 f = false) ps →
  intervals_loop t ps !! f = t !! f.
Proof.
  unfold intervals_loop.
  induction ps as [|p ps IH]; simpl; intros t f Hall; [reflexivity |].
  apply Forall_cons in Hall as [Hp Hall].
  rewrite IH by now rewrite length_iadd_slice.
  rewrite iadd_slice_lookup, Hp. now destruct (t !! f).
Qed.

(** *** NaN is absorbing *)

Lemma row_iadd_nan row c :
  Forall (λ x, np_isnan dt x = true) row →
  Forall (λ x, np_isnan dt x = true) (row_iadd row c).
Proof.
  unfold row_iadd. intros H. revert c.
  induction H as [|x row Hx _ IH]; intros [|y c]; simpl;
    try constructor; [now apply add_nan_l | apply IH].
Qed.

Lemma iadd_index_nan t e c t' :
  rows_nan t → iadd_index t e c = Ok t' → rows_nan t'.
Proof.
  unfold iadd_index, rows_nan. intros Ht (k & _ & [= <-])%bind_Ok.
  apply Forall_alter; [exact Ht |]. intros row _ Hrow.
  now apply row_iadd_nan.
Qed.

Lemma events_loop_nan ps : ∀ t t',
  rows_nan t → events_loop t ps = Ok t' → rows_nan t'.
Proof.
  induction ps as [|[c e] ps IH]; simpl; intros t t' Ht.
  - now intros [= <-].
  - intros (t1 & H1 & H2)%bind_Ok.
    eapply IH; [| exact H2]. eapply iadd_index_nan; eassumption.
Qed.

Lemma iadd_slice_nan t a b c : rows_nan t → rows_nan (iadd_slice t a b c).
Proof.
  unfold rows_nan. intros Ht. apply Forall_lookup. intros f row.
  rewrite iadd_slice_lookup.
  destruct (t !! f) as [row0|] eqn:Hf; simpl; [| discriminate].
  intros [= <-].
  eapply Forall_forall in Ht; [| eapply list_elem_of_lookup_2, Hf].
  destruct (in_slice _ _ _ _); [now apply row_iadd_nan | exact Ht].
Qed.

Lemma intervals_loop_nan ps : ∀ t,
  rows_nan t → rows_nan (intervals_loop t ps).
Proof.
  unfold intervals_loop.
  induction ps as [|p ps IH]; simpl; intros t Ht; [exact Ht |].
  apply IH. now apply iadd_slice_nan.
Qed.

Lemma fill_rows_nan n m :
  issubdtype_float dt || issubdtype_complex dt = true →
  rows_nan (replicate n (replicate m (fill_value dt))).
Proof.
  intros H. unfold rows_nan.
  apply Forall_replicate, Forall_replicate. now apply fill_value_nan.
Qed.

End Loops.

(** ** The frame encoders *)

Lemma Forall_zip_snd {A B} (P : B → Prop) (l : list A) (k : list B) :
  Forall P k → Forall (λ p, P p.2) (zip l k).
Proof.
  intros Hk. apply Forall_forall. intros [a b] Hin.
  apply elem_of_zip_r in Hin. simpl.
  eapply Forall_forall in Hk; eassumption.
Qed.

Section EncoderProperties.

Variable time_to_frames : Q → Q → Z → Z.

Abbreviation frame_of := (frame_of time_to_frames).
Abbreviation encode_events := (encode_events time_to_frames).
Abbreviation encode_intervals := (encode_intervals time_to_frames).

Lemma encode_events_Ok {sdt} self duration events (values : ndarray sdt)
    dt r :
  encode_events self duration events values dt = Ok r ↔
  0 ≤ frame_of self duration ∧
  ∃ t, events_loop
         (replicate (Z.to_nat (frame_of self duration))
                    (fill_row dt (shape1 values)))
         (zip (rows (astype dt values)) (map (frame_of self) events))
       = Ok t ∧ r = mk_ndarray (shape1 values) t.
Proof.
  unfold encode_events. rewrite bind_Ok. split.
  - intros (t0 & [Hn ->]%np_full_Ok & (t & Ht & [= <-])%bind_Ok).
    split; [exact Hn |]. now exists t.
  - intros (Hn & t & Ht & ->). eexists. split.
    + now apply np_full_nonneg.
    + apply bind_Ok. now exists t.
Qed.

Lemma encode_intervals_Ok {sdt} self duration intervals
    (values : ndarray sdt) dt r :
  encode_intervals self duration intervals values dt = Ok r ↔
  0 ≤ frame_of self duration ∧
  r = mk_ndarray (shape1 values)
        (intervals_loop
           (replicate (Z.to_nat (frame_of self duration))
                      (fill_row dt (shape1 values)))
           (zip (rows (astype dt values))
                (map (λ iv, (frame_of self iv.1, frame_of self iv.2))
                     intervals))).
Proof.
  unfold encode_intervals. rewrite bind_Ok. split.
  - intros (t0 & [Hn ->]%np_full_Ok & [= <-]). now split.
  - intros (Hn & ->). eexists. split; [now apply np_full_nonneg |].
    reflexivity.
Qed.

(** [encode_intervals] returns for every track of non-negative length, with
    one row per frame, whatever the interval bounds are. *)
Lemma encode_intervals_total {sdt} self duration intervals
    (values : ndarray sdt) dt :
  0 ≤ frame_of self duration →
  ∃ r, encode_intervals self duration intervals values dt = Ok r ∧
       shape0 r = Z.to_nat (frame_of self duration) ∧
       shape1 r = shape1 values.
Proof.
  intros Hn. eexists. split; [apply encode_intervals_Ok; now split |].
  unfold shape0. simpl.
  now rewrite length_intervals_loop, length_replicate.
Qed.

Lemma encode_events_shape {sdt} self duration events (values : ndarray sdt)
    dt r :
  encode_events self duration events values dt = Ok r →
  shape0 r = Z.to_nat (frame_of self duration) ∧ shape1 r = shape1 values.
Proof.
  intros (Hn & t & Ht & ->)%encode_events_Ok. unfold shape0. simpl.
  now rewrite (events_loop_length _ _ _ Ht), length_replicate.
Qed.

(** [encode_events] raises as soon as one event that is paired with a value
    row has its frame outside [-n_frames, n_frames). *)
Lemma encode_events_out_of_range {sdt} self duration events
    (values : ndarray sdt) dt :
  0 ≤ frame_of self duration →
  Exists (λ p, is_ok (index_axis (Z.to_nat (frame_of self duration)) p.2)
               = false)
         (zip (rows (astype dt values)) (map (frame_of self) events)) →
  encode_events self duration events values dt = Raise IndexError.
Proof.
  intros Hn Hex. unfold encode_events.
  rewrite np_full_nonneg by exact Hn. simpl.
  rewrite events_loop_out_of_range; [reflexivity |].
  now rewrite length_replicate.
Qed.

Lemma encode_events_nil {sdt} self duration (values : ndarray sdt) dt :
  0 ≤ frame_of self duration →
  encode_events self duration [] values dt
  = Ok (fill_array dt (frame_of self duration) (shape1 values)).
Proof.
  intros Hn. apply encode_events_Ok. split; [exact Hn |]. simpl.
  rewrite zip_with_nil_r. now eexists.
Qed.

Lemma encode_intervals_nil {sdt} self duration (values : ndarray sdt) dt :
  0 ≤ frame_of self duration →
  encode_intervals self duration [] values dt
  = Ok (fill_array dt (frame_of self duration) (shape1 values)).
Proof.
  intros Hn. apply encode_intervals_Ok. split; [exact Hn |]. simpl.
  now rewrite zip_with_nil_r.
Qed.

(** C6: for every duration with a non-negative frame count and every
    dtype, [encode_events] on an empty events array and [encode_intervals]
    on an empty intervals array both return the array of shape
    [n_frames, m] whose entries all equal the fill value of the dtype. *)
Theorem encode_empty_input_all_fill {sdt} self duration
    (values : ndarray sdt) dt :
  0 ≤ frame_of self duration →
  encode_events self duration [] values dt
    = Ok (fill_array dt (frame_of self duration) (shape1 values))
  ∧ encode_intervals self duration [] values dt
    = Ok (fill_array dt (frame_of self duration) (shape1 values)).
Proof.
  intros Hn. split.
  - now apply encode_events_nil.
  - now apply encode_intervals_nil.
Qed.

End EncoderProperties.

(** ** Additivity of [encode_intervals] *)

Section RowSums.

Context {dt : dtype}.
Implicit Types (c : list (elem dt)).

Lemma fill_row_add_fill m :
  row_iadd (fill_row dt m) (fill_row dt m) = fill_row dt m.
Proof.
  unfold row_iadd, fill_row. induction m as [|m IH]; simpl; [reflexivity |].
  now rewrite add_fill_fill, IH.
Qed.

Lemma fill_row_add_both m c1 c2 :
  row_iadd (row_iadd (fill_row dt m) c1) c2
  = row_iadd (row_iadd (fill_row dt m) c1) (row_iadd (fill_row dt m) c2).
Proof.
  unfold row_iadd, fill_row. revert c1 c2.
  induction m as [|m IH]; intros [|x c1] [|y c2]; simpl; try reflexivity.
  now rewrite <- add_fill_assoc, IH.
Qed.

Lemma fill_row_add_left m c1 :
  row_iadd (fill_row dt m) c1
  = row_iadd (row_iadd (fill_row dt m) c1) (fill_row dt m).
Proof.
  unfold row_iadd, fill_row. revert c1.
  induction m as [|m IH]; intros [|x c1]; simpl; try reflexivity.
  now rewrite add_fill_r_idem, <- IH.
Qed.

Lemma fill_row_add_right m c2 :
  row_iadd (fill_row dt m) c2
  = row_iadd (fill_row dt m) (row_iadd (fill_row dt m) c2).
Proof.
  unfold row_iadd, fill_row. revert c2.
  induction m as [|m IH]; intros [|y c2]; simpl; try reflexivity.
  now rewrite add_fill_l_idem, <- IH.
Qed.

(** Two slice additions onto a fresh target amount to the element-wise sum
    of the two targets obtained with one addition each. *)
Lemma iadd_slice_twice n m a1 b1 c1 a2 b2 c2 :
  let t0 := replicate n (fill_row dt m) in
  iadd_slice (iadd_slice t0 a1 b1 c1) a2 b2 c2
  = zip_with row_iadd (iadd_slice t0 a1 b1 c1) (iadd_slice t0 a2 b2 c2).
Proof.
  intros t0. apply list_eq. intros f.
  rewrite lookup_zip_with, !iadd_slice_lookup, length_iadd_slice.
  unfold t0. rewrite length_replicate.
  destruct (decide (f < n)%nat) as [Hf | Hf].
  - rewrite lookup_replicate_2 by exact Hf. simpl.
    destruct (in_slice n a1 b1 f), (in_slice n a2 b2 f); f_equal.
    + apply fill_row_add_both.
    + apply fill_row_add_left.
    + apply fill_row_add_right.
    + symmetry. apply fill_row_add_fill.
  - rewrite (proj1 (lookup_replicate_None _ _ _)) by lia. reflexivity.
Qed.

End RowSums.

Section Additivity.

Variable time_to_frames : Q → Q → Z → Z.

Abbreviation frame_of' := (frame_of time_to_frames).
Abbreviation encode_intervals' := (encode_intervals time_to_frames).

(** Encoding two intervals together gives the element-wise sum of the two
    separate encodings, at the addition of the dtype. *)
Lemma encode_intervals_pair_sum {sdt} self duration i1 i2
    (v1 v2 : list (elem sdt)) m dt :
  encode_intervals' self duration [i1; i2] (mk_ndarray m [v1; v2]) dt
  = (r1 ← encode_intervals' self duration [i1] (mk_ndarray m [v1]) dt;
     r2 ← encode_intervals' self duration [i2] (mk_ndarray m [v2]) dt;
     Ok (array_add r1 r2)).
Proof.
  unfold encode_intervals. simpl. unfold np_full.
  destruct (frame_of' self duration <? 0); [reflexivity |]. simpl.
  unfold array_add. simpl. do 2 f_equal.
  apply (iadd_slice_twice (dt := dt)).
Qed.

(** Outside the slice of one interval, the joint encoding is the encoding
    of the other interval alone. *)
Lemma encode_intervals_pair_union {sdt} self duration i1 i2
    (v1 v2 : list (elem sdt)) m dt r12 r1 r2 f :
  encode_intervals' self duration [i1; i2] (mk_ndarray m [v1; v2]) dt
    = Ok r12 →
  encode_intervals' self duration [i1] (mk_ndarray m [v1]) dt = Ok r1 →
  encode_intervals' self duration [i2] (mk_ndarray m [v2]) dt = Ok r2 →
  (in_slice (shape0 r12) (frame_of' self i2.1) (frame_of' self i2.2) f
     = false → rows r12 !! f = rows r1 !! f)
  ∧ (in_slice (shape0 r12) (frame_of' self i1.1) (frame_of' self i1.2) f
       = false → rows r12 !! f = rows r2 !! f).
Proof.
  intros (Hn & ->)%encode_intervals_Ok (_ & ->)%encode_intervals_Ok
         (_ & ->)%encode_intervals_Ok.
  unfold shape0, intervals_loop. simpl.
  rewrite !length_iadd_slice, !iadd_slice_lookup, !length_iadd_slice,
    !length_replicate.
  split; intros ->.
  - now destruct (replicate _ _ !! f).
  - now destruct (replicate _ _ !! f).
Qed.

End Additivity.

(** ** Scenarios *)

(** C1 (amended): encoding two intervals together gives the element-wise sum
    of the two separate encodings at the addition of the dtype, and outside
    the slice of one interval the joint encoding is the encoding of the other
    (the union of the two when they do not overlap).  For the intervals
    [0.0, 1.0) and [0.5, 1.5) with value 1 at [sr=1000], [hop_length=100]
    over two seconds: with every integer dtype frames 5-9 hold 2, frames 0-4
    and 10-14 hold 1 and frames 15-19 hold the fill value 0; with the boolean
    dtype (the default of [encode_intervals]) frames 0-14 hold [True] and the
    others [False]; with the floating dtype and with the complex dtype
    every frame holds NaN (for a complex entry, a NaN real part). *)
Theorem encode_intervals_additive :
  (∀ (time_to_frames : Q → Q → Z → Z) sdt self duration i1 i2
     (v1 v2 : list (elem sdt)) m dt,
     0 ≤ frame_of time_to_frames self duration →
     ∃ r12 r1 r2,
       encode_intervals time_to_frames self duration [i1; i2]
                        (mk_ndarray m [v1; v2]) dt = Ok r12
       ∧ encode_intervals time_to_frames self duration [i1]
                          (mk_ndarray m [v1]) dt = Ok r1
       ∧ encode_intervals time_to_frames self duration [i2]
                          (mk_ndarray m [v2]) dt = Ok r2
       ∧ r12 = array_add r1 r2
       ∧ ∀ f,
           (in_slice (shape0 r12) (frame_of time_to_frames self i2.1)
                     (frame_of time_to_frames self i2.2) f = false →
            rows r12 !! f = rows r1 !! f)
           ∧ (in_slice (shape0 r12) (frame_of time_to_frames self i1.1)
                       (frame_of time_to_frames self i1.2) f = false →
              rows r12 !! f = rows r2 !! f))
  ∧ Forall overlap_sums_to_two integer_dtypes
  ∧ overlap_outcome np_bool true true false
  ∧ overlap_outcome np_float NaN NaN NaN
  ∧ overlap_outcome np_complex (NaN, Fin 0) (NaN, Fin 0) (NaN, Fin 0)
  ∧ (∀ inner outer fill,
       overlap_outcome np_complex inner outer fill →
       np_isnan np_complex inner = true ∧ np_isnan np_complex outer = true
       ∧ np_isnan np_complex fill = true).
Proof.
  split; [| split; [| split; [| split; [| split]]]].
  - intros ttf sdt self duration i1 i2 v1 v2 m dt Hn.
    destruct (encode_intervals_total ttf self duration [i1]
                (mk_ndarray m [v1]) dt Hn) as (r1 & H1 & _).
    destruct (encode_intervals_total ttf self duration [i2]
                (mk_ndarray m [v2]) dt Hn) as (r2 & H2 & _).
    pose proof (encode_intervals_pair_sum ttf self duration i1 i2 v1 v2 m dt)
      as H12.
    rewrite H1, H2 in H12. simpl in H12.
    exists (array_add r1 r2), r1, r2. repeat split; try assumption.
    + now apply (encode_intervals_pair_union ttf self duration i1 i2 v1 v2 m
                   dt _ r1 r2 f H12 H1 H2).
    + now apply (encode_intervals_pair_union ttf self duration i1 i2 v1 v2 m
                   dt _ r1 r2 f H12 H1 H2).
  - unfold integer_dtypes.
    repeat (apply Forall_cons; split); [.. | by apply Forall_nil];
      exists 2, 1; (split; [vm_compute; reflexivity | split; reflexivity]).
  - vm_compute. reflexivity.
  - vm_compute. reflexivity.
  - vm_compute. reflexivity.
  - intros inner outer fill H.
    assert (H' : overlap_outcome np_complex (NaN, Fin 0) (NaN, Fin 0)
                                 (NaN, Fin 0)) by (vm_compute; reflexivity).
    unfold overlap_outcome in H, H'. rewrite H' in H.
    simpl in H. inversion H. repeat split; reflexivity.
Qed.

Lemma encode_intervals_additive_witness :
  0 ≤ frame_of time_to_frames_floor ten_fps 2
  ∧ ∃ r12 r1 r2 : ndarray (np_int 64),
      encode_intervals time_to_frames_floor ten_fps 2 [(0, 1); (1 # 2, 3 # 2)]%Q
                       (@mk_ndarray (np_int 64) 1 [[1]; [1]]) (np_int 64)
        = Ok r12
      ∧ encode_intervals time_to_frames_floor ten_fps 2 [(0, 1)]%Q
                         (@mk_ndarray (np_int 64) 1 [[1]]) (np_int 64) = Ok r1
      ∧ encode_intervals time_to_frames_floor ten_fps 2 [(1 # 2, 3 # 2)]%Q
                         (@mk_ndarray (np_int 64) 1 [[1]]) (np_int 64) = Ok r2
      ∧ r12 = array_add r1 r2.
Proof.
  assert (Hn : 0 ≤ frame_of time_to_frames_floor ten_fps 2)
    by (vm_compute; discriminate).
  split; [exact Hn |].
  destruct (proj1 encode_intervals_additive time_to_frames_floor (np_int 64)
              ten_fps 2%Q (0, 1)%Q (1 # 2, 3 # 2)%Q [1] [1] 1%nat (np_int 64)
              Hn)
    as (r12 & r1 & r2 & H12 & H1 & H2 & Hsum & _).
  exists r12, r1, r2. repeat split; assumption.
Defined.

(** C1, as stated, fails at the default dtype of [encode_intervals]: the
    boolean sum saturates, frames 5-9 hold [True] like their neighbours, and
    no boolean entry has the value 2. *)
Lemma overlap_not_two_at_default_dtype :
  overlap_outcome np_bool true true false ∧ ¬ overlap_sums_to_two np_bool.
Proof.
  split; [vm_compute; reflexivity |].
  intros (inner & outer & _ & Hin & _). destruct inner; discriminate Hin.
Qed.

(** C2: at [sr=1000], [hop_length=100] over a one-second track (ten frames),
    an event at [t = 1.0] has frame index 10 = n_frames and [encode_events]
    raises [IndexError]; the interval [0.5, 1.5), whose end frame 15 lies
    beyond n_frames, is clipped by [encode_intervals], which returns ten
    rows. *)
Theorem encode_events_frame_at_end_raises :
  frame_of time_to_frames_floor ten_fps 1 = 10
  ∧ encode_events time_to_frames_floor ten_fps 1 [1%Q] (np_ones 1) np_bool
    = Raise IndexError
  ∧ encode_intervals time_to_frames_floor ten_fps 1 [(1 # 2, 3 # 2)%Q]
                     (np_ones 1) np_bool
    = Ok (@mk_ndarray np_bool 1 (replicate 5 [false] ++ replicate 5 [true])).
Proof. repeat split; vm_compute; reflexivity. Qed.

Lemma encode_empty_input_all_fill_witness :
  0 ≤ frame_of time_to_frames_floor ten_fps 2
  ∧ encode_events time_to_frames_floor ten_fps 2 [] two_ones np_float
    = Ok (fill_array np_float 20 1)
  ∧ encode_intervals time_to_frames_floor ten_fps 2 [] two_ones np_float
    = Ok (fill_array np_float 20 1).
Proof.
  assert (Hn : 0 ≤ frame_of time_to_frames_floor ten_fps 2)
    by (vm_compute; discriminate).
  split; [exact Hn |].
  exact (encode_empty_input_all_fill time_to_frames_floor ten_fps 2%Q two_ones
           np_float Hn).
Defined.

(** ** The beat transformer *)

Lemma map_replicate {A B} (g : A → B) n x :
  map g (replicate n x) = replicate n (g x).
Proof. induction n as [|n IH]; simpl; [reflexivity | now rewrite IH]. Qed.

Lemma zip_replicate_l {A B} (x : A) (l : list B) :
  zip (replicate (length l) x) l = map (λ y, (x, y)) l.
Proof. induction l as [|y l IH]; simpl; [reflexivity | now rewrite IH]. Qed.

Lemma existsb_map {A B} (g : A → B) (p : B → bool) l :
  existsb p (map g l) = existsb (λ x, p (g x)) l.
Proof. induction l as [|x l IH]; simpl; [reflexivity | now rewrite IH]. Qed.

Lemma existsb_mask_index {A B} (key : A → B) (h : A → bool) (g : B → bool)
    (data : list A) :
  existsb g (mask_index (map key data) (map h data))
  = existsb (λ o, h o && g (key o)) data.
Proof.
  unfold mask_index. induction data as [|o data IH]; simpl; [reflexivity |].
  rewrite filter_cons. simpl.
  destruct (h o); simpl; now rewrite IH.
Qed.

(** On a boolean column, a loop of unit increments marks exactly the rows
    some event lands on. *)
Lemma events_loop_indicator ps : ∀ (t t' : list (list (elem np_bool))) f b,
  Forall (λ p, p.1 = [true]) ps →
  events_loop t ps = Ok t' →
  t !! f = Some [b] →
  t' !! f = Some [b || existsb (λ p, hits (length t) p.2 f) ps].
Proof.
  induction ps as [|[c e] ps IH]; simpl; intros t t' f b Hones.
  - intros [= <-] ->. now rewrite orb_false_r.
  - apply Forall_cons in Hones as [Hc Hones]. simpl in Hc. subst c.
    intros (t1 & H1 & H2)%bind_Ok Hf.
    unfold iadd_index in H1. apply bind_Ok in H1 as (k & Hk & [= <-]).
    assert (Hgoal := IH _ t' f (b || hits (length t) e f) Hones H2).
    rewrite length_alter in Hgoal. rewrite orb_assoc. apply Hgoal.
    unfold hits. simpl in *. rewrite Hk.
    destruct (decide (k = f)) as [-> | Hne].
    + rewrite list_lookup_alter_eq, Hf, bool_decide_eq_true_2 by reflexivity.
      simpl. now rewrite orb_true_r.
    + rewrite list_lookup_alter_ne, Hf, bool_decide_eq_false_2 by assumption.
      now rewrite orb_false_r.
Qed.

Section BeatProperties.

Variable time_to_frames : Q → Q → Z → Z.

Abbreviation frame := (frame_of time_to_frames).
Abbreviation n_frames self duration :=
  (Z.to_nat (frame_of time_to_frames self duration)).

(** [encode_events] of unit labels at the default boolean dtype. *)
Lemma encode_events_ones self duration events r :
  encode_events time_to_frames self duration events
                (np_ones (length events)) np_bool = Ok r →
  shape0 r = n_frames self duration
  ∧ ∀ f, (f < n_frames self duration)%nat →
      rows r !! f
      = Some [existsb (λ t, hits (n_frames self duration) (frame self t) f)
                      events].
Proof.
  intros Hr. split; [eapply encode_events_shape, Hr |].
  apply encode_events_Ok in Hr as (Hn & t & Ht & ->). simpl in *.
  intros f Hf.
  rewrite map_replicate in Ht. simpl in Ht.
  replace (length events) with (length (map (frame self) events)) in Ht
    by apply length_map.
  rewrite zip_replicate_l in Ht.
  eapply (events_loop_indicator _ _ _ f false) in Ht.
  - etrans; [exact Ht |]. simpl.
    rewrite length_replicate, !existsb_map. reflexivity.
  - apply Forall_map. now apply Forall_true.
  - now apply lookup_replicate_2.
Qed.

Lemma encode_events_ones_total self duration events :
  0 ≤ frame self duration →
  Forall (λ t, is_ok (index_axis (n_frames self duration) (frame self t))
               = true) events →
  ∃ r, encode_events time_to_frames self duration events
                     (np_ones (length events)) np_bool = Ok r.
Proof.
  intros Hn Hall.
  destruct (events_loop_in_range (dt := np_bool)
              (zip (rows (astype np_bool (np_ones (length events))))
                   (map (frame self) events))
              (replicate (n_frames self duration) (fill_row np_bool 1)))
    as [t Ht].
  - rewrite length_replicate.
    apply (Forall_zip_snd
             (λ e, is_ok (index_axis (n_frames self duration) e) = true)).
    now apply Forall_map.
  - eexists. apply encode_events_Ok. split; [exact Hn |]. now exists t.
Qed.

End BeatProperties.

Section BeatTheorem.

Variable time_to_frames : Q → Q → Z → Z.

Abbreviation frame' := (frame_of time_to_frames).
Abbreviation n_frames' self duration :=
  (Z.to_nat (frame_of time_to_frames self duration)).

Lemma beat_events_onsets (data : list Observation) :
  map fst (to_interval_values data).1 = map obs_time data.
Proof.
  unfold to_interval_values. simpl. rewrite map_map. reflexivity.
Qed.

Lemma beat_idx_values (data : list Observation) :
  map value_eq_1 (to_interval_values data).2
  = map (λ o, value_eq_1 (obs_value o)) data.
Proof.
  unfold to_interval_values. simpl. rewrite map_map. reflexivity.
Qed.

(** The hook in terms of the two calls to [encode_events]. *)
Lemma transform_annotation_unfold self ann duration :
  let data := ann_data ann in
  let idx := map (λ o, value_eq_1 (obs_value o)) data in
  let downbeats := mask_index (map obs_time data) idx in
  transform_annotation time_to_frames self ann duration
  = (target_beat ←
       encode_events time_to_frames self duration (map obs_time data)
                     (np_ones (length (map obs_time data))) np_bool;
     target_downbeat ←
       (if existsb id idx
        then encode_events time_to_frames self duration downbeats
                           (np_ones (length downbeats)) np_bool
        else encode_events time_to_frames self duration [] np_zeros_0_1
                           np_bool);
     Ok (<["beat" := Array np_bool target_beat]>
         (<["downbeat" := Array np_bool target_downbeat]>
         (<["mask_downbeat" := Flag (existsb id idx)]> ∅)))).
Proof.
  intros data idx downbeats. unfold transform_annotation.
  pose proof (beat_events_onsets (ann_data ann)) as He.
  pose proof (beat_idx_values (ann_data ann)) as Hi.
  destruct (to_interval_values (ann_data ann)) as [intervals values].
  simpl in He, Hi. rewrite He, Hi. fold data idx downbeats.
  destruct (existsb id idx); reflexivity.
Qed.

Lemma mask_index_Forall {A} (P : A → Prop) (l : list A) : ∀ idx,
  Forall P l → Forall P (mask_index l idx).
Proof.
  unfold mask_index. induction l as [|x l IH]; intros [|b idx] Hl; simpl;
    try constructor.
  apply Forall_cons in Hl as [Hx Hl]. rewrite filter_cons.
  destruct b; simpl.
  - constructor; [exact Hx | now apply IH].
  - now apply IH.
Qed.

Lemma existsb_andb_false {A} (h g : A → bool) (l : list A) :
  existsb h l = false → existsb (λ o, h o && g o) l = false.
Proof.
  induction l as [|x l IH]; simpl; [reflexivity |].
  intros [-> Hl]%orb_false_elim. simpl. now apply IH.
Qed.

(** C10: [BeatTransformer.transform_annotation] returns as soon as every
    onset has its frame within the frame axis; the beat field marks the
    frames some onset lands on, whatever its value; the downbeat field
    marks the frames some onset of value 1 lands on; and [mask_downbeat]
    is true exactly when some value equals 1, so that without such a value
    the downbeat field is all fill and the flag is false. *)
Theorem beat_transform_annotation_spec self ann duration :
  let data := ann_data ann in
  let n := n_frames' self duration in
  let is_downbeat o := value_eq_1 (obs_value o) in
  let lands o f := hits n (frame' self (obs_time o)) f in
  (0 ≤ frame' self duration →
   Forall (λ o, is_ok (index_axis n (frame' self (obs_time o))) = true)
          data →
   ∃ r, transform_annotation time_to_frames self ann duration = Ok r)
  ∧ (∀ r, transform_annotation time_to_frames self ann duration = Ok r →
      ∃ beat downbeat,
        r !! "beat" = Some (Array np_bool beat)
        ∧ r !! "downbeat" = Some (Array np_bool downbeat)
        ∧ r !! "mask_downbeat" = Some (Flag (existsb is_downbeat data))
        ∧ shape0 beat = n ∧ shape0 downbeat = n
        ∧ (∀ f, (f < n)%nat →
             rows beat !! f = Some [existsb (λ o, lands o f) data]
             ∧ rows downbeat !! f
               = Some [existsb (λ o, is_downbeat o && lands o f) data])
        ∧ (existsb is_downbeat data = false →
           downbeat = fill_array np_bool (frame' self duration) 1)).
Proof.
  intros data n is_downbeat lands. split.
  - intros Hn Hall. rewrite transform_annotation_unfold. fold data.
    destruct (encode_events_ones_total time_to_frames self duration
                (map obs_time data) Hn) as [beat Hbeat].
    { now apply Forall_map. }
    rewrite Hbeat. simpl.
    destruct (existsb id _).
    + destruct (encode_events_ones_total time_to_frames self duration
                  (mask_index (map obs_time data)
                     (map (λ o, value_eq_1 (obs_value o)) data)) Hn)
        as [down Hdown].
      { apply mask_index_Forall. now apply Forall_map. }
      rewrite Hdown. simpl. now eexists.
    + rewrite encode_events_nil by exact Hn. simpl. now eexists.
  - intros r Hr. rewrite transform_annotation_unfold in Hr. fold data in Hr.
    apply bind_Ok in Hr as (beat & Hbeat & Hr).
    apply bind_Ok in Hr as (down & Hdown & [= <-]).
    rewrite existsb_map in Hdown |- *.
    change (existsb (λ x, id (value_eq_1 (obs_value x))) data)
      with (existsb is_downbeat data) in *.
    fold is_downbeat in Hdown.
    exists beat, down.
    apply encode_events_ones in Hbeat as [Hbn Hbeat].
    assert (Hn : 0 ≤ frame' self duration).
    { destruct (existsb is_downbeat data);
        apply encode_events_Ok in Hdown; tauto. }
    assert (Hdn : shape0 down = n).
    { destruct (existsb is_downbeat data);
        eapply encode_events_shape, Hdown. }
    repeat split; try assumption; try reflexivity.
    + rewrite (Hbeat f) by assumption.
      now rewrite existsb_map.
    + destruct (existsb is_downbeat data) eqn:Hany.
      * apply encode_events_ones in Hdown as [_ Hdown].
        rewrite (Hdown f) by assumption.
        now rewrite (existsb_mask_index obs_time is_downbeat).
      * rewrite encode_events_nil in Hdown by exact Hn.
        injection Hdown as <-. simpl.
        rewrite lookup_replicate_2 by assumption.
        now rewrite existsb_andb_false.
    + intros Hany. rewrite Hany in Hdown.
      rewrite encode_events_nil in Hdown by exact Hn.
      now injection Hdown as <-.
Qed.

End BeatTheorem.

Lemma beat_transform_annotation_spec_witness :
  0 ≤ frame_of time_to_frames_floor beat_22050_512 5
  ∧ ∃ r, transform_annotation time_to_frames_floor beat_22050_512 two_beats 5
         = Ok r.
Proof.
  assert (Hn : 0 ≤ frame_of time_to_frames_floor beat_22050_512 5)
    by (vm_compute; discriminate).
  split; [exact Hn |].
  apply (proj1 (beat_transform_annotation_spec time_to_frames_floor
                  beat_22050_512 two_beats 5%Q)).
  - exact Hn.
  - repeat constructor.
Defined.

(** ** The annotation orchestrator *)

#[export] Instance scope_inj self : Inj (=) (=) (scope self).
Proof.
  intros x y H. unfold scope in H.
  apply (inj (String.app (name self))) in H.
  now apply (inj (String.app "/")) in H.
Qed.

Section TransformProperties.

Variable time_to_frames : Q → Q → Z → Z.
Variable convert : Annotation → string → result Annotation.
Variable Query : Type.
Variable search : JAMS → Query → list Annotation.
Variable hook :
  BaseTaskTransformer → Annotation → Q → result (gmap string field_value).
Variable merge' :
  BaseTaskTransformer → list (gmap string field_value) →
  result (gmap string field_value).

Lemma convert_all_skip self l1 a l2 :
  convert a (namespace self) = Raise NamespaceError →
  convert_all convert self (l1 ++ a :: l2)
  = convert_all convert self (l1 ++ l2).
Proof.
  intros Ha. induction l1 as [|x l1 IH]; simpl.
  - now rewrite Ha.
  - now rewrite IH.
Qed.

Lemma convert_all_absorbs self l :
  convert_all convert self l ≠ Raise NamespaceError.
Proof.
  induction l as [|x l IH]; simpl; [discriminate |].
  destruct (convert x (namespace self)) as [a|e].
  - destruct (convert_all convert self l); simpl; congruence.
  - destruct e; try discriminate. exact IH.
Qed.

Lemma convert_all_none self l :
  Forall (λ a, convert a (namespace self) = Raise NamespaceError) l →
  convert_all convert self l = Ok [].
Proof.
  induction 1 as [|x l Hx _ IH]; simpl; [reflexivity |].
  now rewrite Hx.
Qed.

(** C7: a candidate whose conversion raises [NamespaceError] leaves no
    trace: [transform] returns what it returns without that candidate,
    with or without a query, and the conversion loop never ends in a
    [NamespaceError]. *)
Theorem transform_skips_failed_conversion self l1 a l2 duration :
  convert a (namespace self) = Raise NamespaceError →
  transform time_to_frames convert Query search hook merge' self
            (mk_jams (l1 ++ a :: l2) duration) None
  = transform time_to_frames convert Query search hook merge' self
              (mk_jams (l1 ++ l2) duration) None
  ∧ (∀ jam jam' q,
       search jam q = l1 ++ a :: l2 → search jam' q = l1 ++ l2 →
       file_metadata_duration jam = file_metadata_duration jam' →
       transform time_to_frames convert Query search hook merge' self jam
                 (Some q)
       = transform time_to_frames convert Query search hook merge' self
                   jam' (Some q))
  ∧ (∀ l, convert_all convert self l ≠ Raise NamespaceError).
Proof.
  intros Ha. split; [| split].
  - unfold transform, transform_results. simpl.
    now rewrite convert_all_skip.
  - intros jam jam' q Hq Hq' Hd. unfold transform, transform_results.
    now rewrite Hq, Hq', Hd, convert_all_skip.
  - intros l. apply convert_all_absorbs.
Qed.

End TransformProperties.

Section EmptyFallback.

Variable time_to_frames : Q → Q → Z → Z.
Variable convert : Annotation → string → result Annotation.
Variable Query : Type.
Variable search : JAMS → Query → list Annotation.
Variable merge' :
  BaseTaskTransformer → list (gmap string field_value) →
  result (gmap string field_value).

(** The beat hook on the synthesized annotation. *)
Lemma transform_annotation_empty self duration :
  0 ≤ frame_of time_to_frames self duration →
  transform_annotation time_to_frames self (empty self duration) duration
  = Ok (delete "_valid" (unobserved_record time_to_frames self duration)).
Proof.
  intros Hn. rewrite transform_annotation_unfold.
  cbn [empty ann_data map length existsb].
  change (np_ones 0) with np_zeros_0_1.
  rewrite !encode_events_nil by exact Hn.
  unfold unobserved_record. rewrite delete_insert_eq. reflexivity.
Qed.

(** C5 (amended): when no candidate converts, [transform] hands to the
    merge exactly one record, that of the synthesized annotation.  Its
    label fields span the frames of the whole track and hold the fill
    value, its flag is false, and its [_valid] window is the one of an
    annotation with [time=0] and [duration=0], from the frame of 0 to the
    frame of 0, not the span of the track.  After the merge the same
    values sit under the prefixed keys. *)
Theorem transform_without_convertible_annotation self jam query :
  let duration := file_metadata_duration jam in
  let record := unobserved_record time_to_frames self duration in
  Forall (λ a, convert a (namespace self) = Raise NamespaceError)
         (match query with
          | Some q => search jam q
          | None => annotations jam
          end) →
  0 ≤ frame_of time_to_frames self duration →
  transform_results time_to_frames convert Query search
                    (transform_annotation time_to_frames) self jam query
    = Ok [record]
  ∧ transform time_to_frames convert Query search
              (transform_annotation time_to_frames) merge' self jam query
    = merge' self [record]
  ∧ record !! "_valid"
    = Some (Valid (frame_of time_to_frames self 0)
                  (frame_of time_to_frames self 0))
  ∧ ∃ out, merge self [record] = Ok out
      ∧ out !! scope self "_valid"
        = Some (Valid (frame_of time_to_frames self 0)
                      (frame_of time_to_frames self 0))
      ∧ out !! scope self "beat"
        = Some (Array np_bool
                  (fill_array np_bool
                     (frame_of time_to_frames self duration) 1))
      ∧ out !! scope self "downbeat"
        = Some (Array np_bool
                  (fill_array np_bool
                     (frame_of time_to_frames self duration) 1))
      ∧ out !! scope self "mask_downbeat" = Some (Flag false).
Proof.
  intros duration record Hall Hn.
  assert (Hres : transform_results time_to_frames convert Query search
                   (transform_annotation time_to_frames) self jam query
                 = Ok [record]).
  { unfold transform_results. rewrite convert_all_none by exact Hall.
    simpl. fold duration.
    rewrite transform_annotation_empty by exact Hn. reflexivity. }
  split; [exact Hres |]. split.
  - unfold transform. now rewrite Hres.
  - split; [reflexivity |].
    eexists. split; [reflexivity |]. simpl.
    rewrite !lookup_kmap; try apply scope_inj.
    repeat split; reflexivity.
Qed.

End EmptyFallback.

Lemma transform_without_convertible_annotation_witness :
  transform_results time_to_frames_floor nsconvert_same unit (λ _ _, [])
                    (transform_annotation time_to_frames_floor)
                    beat_22050_512 (mk_jams [chord_annotation] 5) None
  = Ok [unobserved_record time_to_frames_floor beat_22050_512 5].
Proof.
  apply (transform_without_convertible_annotation time_to_frames_floor
           nsconvert_same unit (λ _ _, []) merge beat_22050_512
           (mk_jams [chord_annotation] 5) None).
  - repeat constructor.
  - vm_compute. discriminate.
Defined.

(** C5, as stated, fails on a track whose only annotation does not convert:
    the [_valid] window that comes back is [0, 0], while the track spans the
    frames 0 to 215. *)
Lemma untagged_track_valid_window :
  frame_of time_to_frames_floor beat_22050_512 5 = 215
  ∧ (∃ out, beat_transform time_to_frames_floor beat_22050_512
                           (mk_jams [chord_annotation] 5) = Ok out
            ∧ out !! "beat/_valid" = Some (Valid 0 0))
  ∧ ¬ (∃ out, beat_transform time_to_frames_floor beat_22050_512
                             (mk_jams [chord_annotation] 5) = Ok out
              ∧ out !! "beat/_valid"
                = Some (Valid 0 (frame_of time_to_frames_floor
                                          beat_22050_512 5))).
Proof.
  split; [vm_compute; reflexivity |].
  assert (H : match beat_transform time_to_frames_floor beat_22050_512
                                   (mk_jams [chord_annotation] 5) with
              | Ok out => out !! "beat/_valid"
              | Raise _ => None
              end = Some (Valid 0 0)) by (vm_compute; reflexivity).
  destruct (beat_transform time_to_frames_floor beat_22050_512
                           (mk_jams [chord_annotation] 5)) as [out|e];
    [| discriminate H].
  split.
  - exists out. split; [reflexivity | exact H].
  - intros (out' & [= <-] & Hvalid). rewrite H in Hvalid.
    vm_compute in Hvalid. discriminate Hvalid.
Qed.

Lemma transform_skips_failed_conversion_witness :
  beat_transform time_to_frames_floor beat_22050_512
                 (mk_jams [one_beat None None None; chord_annotation] 5)
  = beat_transform time_to_frames_floor beat_22050_512
                   (mk_jams [one_beat None None None] 5).
Proof.
  exact (proj1 (transform_skips_failed_conversion time_to_frames_floor
                  nsconvert_same unit (λ _ _, [])
                  (transform_annotation time_to_frames_floor) merge
                  beat_22050_512 [one_beat None None None] chord_annotation
                  [] 5%Q eq_refl)).
Defined.

(** The beat hook only looks at whether a value equals 1. *)
Lemma transform_annotation_one_beat time_to_frames self time duration value
    track :
  value_eq_1 value = false →
  transform_annotation time_to_frames self (one_beat time duration value)
                       track
  = transform_annotation time_to_frames self (one_beat time duration None)
                         track.
Proof.
  intros Hv. rewrite !transform_annotation_unfold.
  cbn [one_beat ann_data map obs_value obs_time]. now rewrite Hv.
Qed.

Lemma beat_transform_one_beat time_to_frames self time duration value track :
  value_eq_1 value = false →
  beat_transform time_to_frames self
                 (mk_jams [one_beat time duration value] track)
  = beat_transform time_to_frames self
                   (mk_jams [one_beat time duration None] track)
  ∧ transform_results time_to_frames nsconvert_same unit (λ _ _, [])
                      (transform_annotation time_to_frames) self
                      (mk_jams [one_beat time duration value] track) None
    = transform_results time_to_frames nsconvert_same unit (λ _ _, [])
                        (transform_annotation time_to_frames) self
                        (mk_jams [one_beat time duration None] track) None.
Proof.
  intros Hv.
  assert (Hres :
    transform_results time_to_frames nsconvert_same unit (λ _ _, [])
                      (transform_annotation time_to_frames) self
                      (mk_jams [one_beat time duration value] track) None
    = transform_results time_to_frames nsconvert_same unit (λ _ _, [])
                        (transform_annotation time_to_frames) self
                        (mk_jams [one_beat time duration None] track) None).
  { unfold transform_results. cbn [annotations convert_all].
    unfold nsconvert_same. cbn [one_beat ann_namespace].
    destruct (String.eqb "beat" (namespace self));
      cbn [mbind result_bind file_metadata_duration apply_all].
    - now rewrite (transform_annotation_one_beat _ _ _ _ value).
    - reflexivity. }
  split; [| exact Hres].
  unfold beat_transform, transform. now rewrite Hres.
Qed.

(** C8: at [sr=22050], [hop_length=512], a single beat annotation whose one
    onset at [t = 1.0] does not carry the value 1, over a 5.0 s track: the
    beat field is true at frame 43 and false on the other 214 frames, the
    downbeat field is false throughout, [mask_downbeat] is false and
    [_valid] is [0, 215], whether the annotation leaves its time range unset
    or sets it to the track, and under both readings (floor, round) of the
    time-to-frame function; 43 and 215 are the frames of 1.0 s and 5.0 s. *)
Theorem beat_only_scenario (value : option Q) :
  value_eq_1 value = false →
  transform_results time_to_frames_floor nsconvert_same unit (λ _ _, [])
                    (transform_annotation time_to_frames_floor)
                    beat_22050_512 (mk_jams [one_beat None None value] 5) None
    = Ok [beat_only_record]
  ∧ beat_transform time_to_frames_floor beat_22050_512
                   (mk_jams [one_beat None None value] 5)
    = Ok beat_only_output
  ∧ beat_transform time_to_frames_floor beat_22050_512
                   (mk_jams [one_beat (Some 0%Q) (Some 5%Q) value] 5)
    = Ok beat_only_output
  ∧ beat_transform time_to_frames_round beat_22050_512
                   (mk_jams [one_beat None None value] 5)
    = Ok beat_only_output
  ∧ beat_transform time_to_frames_round beat_22050_512
                   (mk_jams [one_beat (Some 0%Q) (Some 5%Q) value] 5)
    = Ok beat_only_output
  ∧ time_to_frames_round 1 22050 512 = 43
  ∧ time_to_frames_round 5 22050 512 = 215.
Proof.
  intros Hv.
  split.
  { etrans; [apply (proj2 (beat_transform_one_beat _ _ _ _ _ _ Hv)) |].
    vm_cast_no_check (eq_refl (Ok [beat_only_record])). }
  do 4 (split;
        [etrans; [apply (proj1 (beat_transform_one_beat _ _ _ _ _ _ Hv)) |];
         vm_cast_no_check (eq_refl (Ok beat_only_output)) |]).
  split; vm_compute; reflexivity.
Qed.

Lemma beat_only_scenario_witness :
  value_eq_1 (Some 2%Q) = false
  ∧ beat_transform time_to_frames_floor beat_22050_512
                   (mk_jams [one_beat None None (Some 2%Q)] 5)
    = Ok beat_only_output.
Proof.
  split; [reflexivity |].
  exact (proj1 (proj2 (beat_only_scenario (Some 2%Q) eq_refl))).
Defined.

(** ** The STFT feature extractors *)

Section STFTProperties.

Variable Audio : Type.
Variable magphase_stft :
  Audio → Z → Z → result (ndarray np_float * ndarray np_float).
Variable phase_diff : field_value → field_value.

Abbreviation STFT_audio := (FFT.STFT_transform_audio Audio magphase_stft).
Abbreviation STFTMag_audio :=
  (FFT.STFTMag_transform_audio Audio magphase_stft).
Abbreviation STFTPhaseDiff_audio :=
  (FFT.STFTPhaseDiff_transform_audio Audio magphase_stft phase_diff).

(** C9: whenever the parent transform returns, the magnitude-only variant
    returns the mapping with the single key [mag], bound to the parent's
    magnitude, and the phase-difference variant returns exactly the keys
    [mag] and [dphase], with the parent's magnitude untouched and [dphase]
    computed from the parent's phase; a failure of the parent propagates
    unchanged.  On the schema side, [STFTMag] registers [mag] only and
    [STFTPhaseDiff] registers [dphase] with the descriptor of the removed
    [phase] field. *)
Theorem stft_variants_fields (self : FFT.STFT) (y : Audio) :
  match STFT_audio self y with
  | Ok data =>
      ∃ mag phase,
        data !! "mag" = Some mag ∧ data !! "phase" = Some phase
        ∧ STFTMag_audio self y = Ok {["mag" := mag]}
        ∧ STFTPhaseDiff_audio self y
          = Ok (<["dphase" := phase_diff phase]> {["mag" := mag]})
  | Raise e =>
      STFTMag_audio self y = Raise e ∧ STFTPhaseDiff_audio self y = Raise e
  end
  ∧ ∀ name sr hop_length n_fft,
      ∃ parent mag_only diff,
        FFT.STFT_init name sr hop_length n_fft = Ok parent
        ∧ FFT.STFTMag_init name sr hop_length n_fft = Ok mag_only
        ∧ FFT.STFTPhaseDiff_init name sr hop_length n_fft = Ok diff
        ∧ dom (FFT.fields mag_only) = {["mag"]}
        ∧ dom (FFT.fields diff) = {["mag"; "dphase"]}
        ∧ is_Some (FFT.fields parent !! "phase")
        ∧ FFT.fields diff !! "dphase" = FFT.fields parent !! "phase"
        ∧ FFT.fields diff !! "mag" = FFT.fields parent !! "mag"
        ∧ FFT.fields mag_only !! "mag" = FFT.fields parent !! "mag".
Proof.
  split.
  - unfold FFT.STFTMag_transform_audio, FFT.STFTPhaseDiff_transform_audio,
      FFT.STFT_transform_audio.
    destruct (magphase_stft y _ _) as [[mag phase]|e]; simpl.
    + exists (Array np_float mag), (Array np_float phase).
      repeat split; reflexivity.
    + split; reflexivity.
  - intros name sr hop_length n_fft.
    do 3 eexists. repeat split; try reflexivity.
    now eexists.
Qed.

End STFTProperties.

(** * Further properties *)

(** ** The encoders, row by row *)

Section PointwiseLoops.

Context {dt : dtype}.
Implicit Types (t : list (list (elem dt))) (c row : list (elem dt)).

Lemma events_loop_pointwise ps : ∀ t t' f row,
  events_loop t ps = Ok t' →
  t !! f = Some row →
  t' !! f = Some (foldl row_iadd row (hitting_columns (length t) ps f)).
Proof.
  unfold hitting_columns.
  induction ps as [|[c e] ps IH]; simpl; intros t t' f row.
  - now intros [= <-] ->.
  - intros (t1 & H1 & H2)%bind_Ok Hf.
    pose proof (iadd_index_length _ _ _ _ H1) as Hlen.
    unfold iadd_index in H1. apply bind_Ok in H1 as (k & Hk & [= <-]).
    rewrite filter_cons. simpl.
    destruct (decide (hits (length t) e f = true)) as [Hh | Hh]; simpl.
    + apply hits_true in Hh. rewrite Hk in Hh. injection Hh as ->.
      rewrite <- Hlen. apply IH; [exact H2 |].
      now rewrite list_lookup_alter_eq, Hf.
    + assert (k ≠ f) as Hne.
      { intros ->. apply Hh. now apply hits_true. }
      rewrite <- Hlen. apply IH; [exact H2 |].
      now rewrite list_lookup_alter_ne.
Qed.

Lemma intervals_loop_pointwise ps : ∀ t f,
  intervals_loop t ps !! f
  = (λ row, foldl row_iadd row (covering_columns (length t) ps f))
      <$> t !! f.
Proof.
  unfold intervals_loop, covering_columns.
  induction ps as [|[c [a b]] ps IH]; simpl; intros t f.
  - now destruct (t !! f).
  - rewrite IH, length_iadd_slice, iadd_slice_lookup, filter_cons. simpl.
    destruct (t !! f) as [row|]; simpl; [| reflexivity].
    destruct (decide (in_slice (length t) a b f = true)) as [Hs | Hs].
    + now rewrite Hs.
    + apply not_true_is_false in Hs. now rewrite Hs.
Qed.

End PointwiseLoops.

Lemma foldl_row_iadd_length {dt} (cols : list (list (elem dt))) : ∀ row,
  Forall (λ c, length c = length row) cols →
  length (foldl row_iadd row cols) = length row.
Proof.
  induction cols as [|c cols IH]; simpl; intros row Hall; [reflexivity |].
  apply Forall_cons in Hall as [Hc Hall].
  assert (Hlen : length (row_iadd row c) = length row).
  { unfold row_iadd. rewrite length_zip_with. lia. }
  rewrite IH; [exact Hlen |].
  rewrite Hlen. exact Hall.
Qed.

Lemma astype_well_shaped {sdt} dt (values : ndarray sdt) :
  well_shaped values → well_shaped (astype dt values).
Proof.
  unfold well_shaped. simpl. intros H. apply Forall_map.
  eapply Forall_impl; [exact H |]. intros row Hrow. simpl.
  now rewrite length_map.
Qed.

Section RowwiseEncoders.

Variable time_to_frames : Q → Q → Z → Z.

Abbreviation frame_at := (frame_of time_to_frames).
Abbreviation encode_events_ := (encode_events time_to_frames).
Abbreviation encode_intervals_ := (encode_intervals time_to_frames).
Abbreviation event_pairs_ := (event_pairs time_to_frames).
Abbreviation interval_pairs_ := (interval_pairs time_to_frames).

(** X1: Every row that [encode_events] returns is the fill row plus, in loop
    order, the value rows of the events that land on it. *)
Theorem encode_events_rowwise {sdt} self duration events
    (values : ndarray sdt) dt r f :
  encode_events_ self duration events values dt = Ok r →
  (f < shape0 r)%nat →
  rows r !! f
  = Some (foldl row_iadd (fill_row dt (shape1 values))
                (hitting_columns (shape0 r)
                                 (event_pairs_ self events values dt) f)).
Proof.
  intros Hr Hf.
  destruct (encode_events_shape _ _ _ _ _ _ _ Hr) as [Hs _].
  apply encode_events_Ok in Hr as (Hn & t & Ht & ->).
  unfold shape0 in *. simpl in *.
  eapply events_loop_pointwise in Ht.
  - rewrite Ht, length_replicate, Hs. reflexivity.
  - apply lookup_replicate_2. lia.
Qed.

(** X2: Every row that [encode_intervals] returns is the fill row plus, in loop
    order, the value rows of the intervals whose slice holds it. *)
Theorem encode_intervals_rowwise {sdt} self duration intervals
    (values : ndarray sdt) dt r f :
  encode_intervals_ self duration intervals values dt = Ok r →
  (f < shape0 r)%nat →
  rows r !! f
  = Some (foldl row_iadd (fill_row dt (shape1 values))
                (covering_columns (shape0 r)
                   (interval_pairs_ self intervals values dt) f)).
Proof.
  intros (Hn & ->)%encode_intervals_Ok Hf.
  unfold shape0 in *. simpl in *.
  rewrite length_intervals_loop, length_replicate in *.
  rewrite intervals_loop_pointwise, length_replicate.
  now rewrite lookup_replicate_2 by exact Hf.
Qed.

End RowwiseEncoders.

Lemma Forall_filter_keep {A} (P : A → Prop) (R : A → Prop)
    `{∀ x, Decision (R x)} (l : list A) :
  Forall P l → Forall P (filter R l).
Proof.
  intros Hl. apply Forall_forall. intros x Hin.
  apply list_elem_of_filter in Hin as [_ Hin].
  eapply Forall_forall in Hl; eassumption.
Qed.

Section LoopShapes.

Context {dt : dtype}.
Implicit Types (t : list (list (elem dt))).

Lemma events_loop_row_length m ps t t' :
  events_loop t ps = Ok t' →
  Forall (λ row, length row = m) t →
  Forall (λ p, length p.1 = m) ps →
  Forall (λ row, length row = m) t'.
Proof.
  intros Ht Hrows Hps. apply Forall_lookup. intros f row' Hrow'.
  assert (Hf : (f < length t)%nat).
  { rewrite <- (events_loop_length _ _ _ Ht). eapply lookup_lt_Some, Hrow'. }
  destruct (lookup_lt_is_Some_2 _ _ Hf) as [row Hrow].
  rewrite (events_loop_pointwise _ _ _ _ _ Ht Hrow) in Hrow'.
  injection Hrow' as <-.
  assert (Hm : length row = m).
  { eapply Forall_lookup_1 in Hrows; eassumption. }
  rewrite foldl_row_iadd_length; [exact Hm |].
  unfold hitting_columns. apply Forall_map, Forall_filter_keep.
  eapply Forall_impl; [exact Hps |]. intros p Hp. simpl. congruence.
Qed.

Lemma intervals_loop_row_length m ps t :
  Forall (λ row, length row = m) t →
  Forall (λ p, length p.1 = m) ps →
  Forall (λ row, length row = m) (intervals_loop t ps).
Proof.
  intros Hrows Hps. apply Forall_lookup. intros f row'.
  rewrite intervals_loop_pointwise.
  destruct (t !! f) as [row|] eqn:Hrow; simpl; [| discriminate].
  intros [= <-].
  assert (Hm : length row = m).
  { eapply Forall_lookup_1 in Hrows; eassumption. }
  rewrite foldl_row_iadd_length; [exact Hm |].
  unfold covering_columns. apply Forall_map, Forall_filter_keep.
  eapply Forall_impl; [exact Hps |]. intros p Hp. simpl. congruence.
Qed.

End LoopShapes.

Lemma Forall_zip_fst {A B} (P : A → Prop) (l : list A) (k : list B) :
  Forall P l → Forall (λ p, P p.1) (zip l k).
Proof.
  intros Hl. apply Forall_forall. intros [a b] Hin.
  apply elem_of_zip_l in Hin. simpl.
  eapply Forall_forall in Hl; eassumption.
Qed.

Section EncoderOutcomes.

Variable time_to_frames : Q → Q → Z → Z.

Abbreviation frame_at' := (frame_of time_to_frames).
Abbreviation n_rows self duration :=
  (Z.to_nat (frame_of time_to_frames self duration)).

(** X3: Both encoders return [n_frames] rows of [values.shape[1]] entries
    each. *)
Theorem encoders_shape {sdt} self duration events intervals
    (values : ndarray sdt) dt :
  well_shaped values →
  (∀ r, encode_events time_to_frames self duration events values dt = Ok r →
        shape0 r = n_rows self duration
        ∧ shape1 r = shape1 values ∧ well_shaped r)
  ∧ (∀ r, encode_intervals time_to_frames self duration intervals values dt
          = Ok r →
          shape0 r = n_rows self duration
          ∧ shape1 r = shape1 values ∧ well_shaped r).
Proof.
  intros Hv. apply (astype_well_shaped dt) in Hv. unfold well_shaped in Hv.
  simpl in Hv.
  split; intros r Hr.
  - destruct (encode_events_shape _ _ _ _ _ _ _ Hr) as [Hs0 Hs1].
    split; [exact Hs0 |]. split; [exact Hs1 |].
    apply encode_events_Ok in Hr as (Hn & t & Ht & ->).
    unfold well_shaped. simpl.
    eapply events_loop_row_length; [exact Ht | |].
    + apply Forall_replicate. apply length_replicate.
    + apply (Forall_zip_fst (λ c, length c = shape1 values)). exact Hv.
  - apply encode_intervals_Ok in Hr as (Hn & ->).
    unfold shape0, well_shaped. simpl.
    rewrite length_intervals_loop, length_replicate.
    split; [reflexivity |]. split; [reflexivity |].
    apply intervals_loop_row_length.
    + apply Forall_replicate. apply length_replicate.
    + apply (Forall_zip_fst (λ c, length c = shape1 values)). exact Hv.
Qed.

(** X4: The outcomes of [encode_events]: it returns exactly when the frame
    count is non-negative and every event paired with a value row has its
    frame within [-n_frames, n_frames); it raises [ValueError] exactly on a
    negative frame count and [IndexError] exactly on a frame out of range;
    it raises nothing else. *)
Theorem encode_events_outcomes {sdt} self duration events
    (values : ndarray sdt) dt :
  match encode_events time_to_frames self duration events values dt with
  | Ok _ =>
      0 ≤ frame_at' self duration
      ∧ Forall (λ p, in_range (n_rows self duration) p.2 = true)
               (event_pairs time_to_frames self events values dt)
  | Raise e =>
      (e = ValueError ∧ frame_at' self duration < 0)
      ∨ (e = IndexError ∧ 0 ≤ frame_at' self duration
         ∧ Exists (λ p, in_range (n_rows self duration) p.2 = false)
                  (event_pairs time_to_frames self events values dt))
  end.
Proof.
  unfold encode_events, np_full, event_pairs, in_range.
  destruct (Z.ltb_spec (frame_at' self duration) 0) as [Hn | Hn]; simpl.
  { left. now split. }
  set (ps := zip _ _).
  set (t0 := replicate _ _).
  assert (Hlen : length t0 = n_rows self duration)
    by apply length_replicate.
  destruct (Forall_Exists_dec
              (λ p : list (elem dt) * Z,
                 is_ok (index_axis (n_rows self duration) p.2) = true)
              (λ p, is_ok (index_axis (n_rows self duration) p.2) ≠ true)
              (λ p, decide _) ps) as [Hall | Hex].
  - destruct (events_loop_in_range ps t0) as [t Ht].
    { now rewrite Hlen. }
    rewrite Ht. simpl. now split.
  - assert (Hex' : Exists (λ p : list (elem dt) * Z,
                             is_ok (index_axis (n_rows self duration) p.2)
                             = false) ps).
    { eapply Exists_impl; [exact Hex |]. intros p Hp.
      now apply not_true_is_false. }
    rewrite events_loop_out_of_range by now rewrite Hlen.
    simpl. right. now repeat split.
Qed.

(** X5: The outcomes of [encode_intervals]: on a negative frame count it raises
    [ValueError]; otherwise it returns, whatever the interval bounds are
    (reversed, negative, beyond the end of the track). *)
Theorem encode_intervals_outcomes {sdt} self duration intervals
    (values : ndarray sdt) dt :
  if frame_at' self duration <? 0
  then encode_intervals time_to_frames self duration intervals values dt
       = Raise ValueError
  else ∃ r, encode_intervals time_to_frames self duration intervals values dt
            = Ok r
            ∧ shape0 r = n_rows self duration.
Proof.
  destruct (Z.ltb_spec (frame_at' self duration) 0) as [Hn | Hn].
  - unfold encode_intervals, np_full.
    now rewrite (proj2 (Z.ltb_lt _ _) Hn).
  - eexists. split; [apply encode_intervals_Ok; now split |].
    unfold shape0. simpl.
    now rewrite length_intervals_loop, length_replicate.
Qed.

End EncoderOutcomes.

(** ** Surplus input, empty slices, indices from the end *)

Lemma zip_app_surplus_r {A B} (l : list A) (k k' : list B) :
  length k = length l → zip l (k ++ k') = zip l k.
Proof.
  revert k. induction l as [|x l IH]; intros [|y k] Hlen; simpl in *;
    try discriminate; try reflexivity.
  f_equal. apply IH. lia.
Qed.

Lemma zip_app_surplus_l {A B} (l l' : list A) (k : list B) :
  length l = length k → zip (l ++ l') k = zip l k.
Proof.
  revert k. induction l as [|x l IH]; intros [|y k] Hlen; simpl in *;
    try discriminate; try reflexivity.
  - now destruct l'.
  - f_equal. apply IH. lia.
Qed.

Section EdgeInputs.

Variable time_to_frames : Q → Q → Z → Z.

Abbreviation frame_e := (frame_of time_to_frames).
Abbreviation n_e self duration :=
  (Z.to_nat (frame_of time_to_frames self duration)).

(** X6: The loops run over [zip(values, frames)]: events or intervals beyond the
    last value row, and value rows beyond the last event or interval, are
    ignored without an error. *)
Theorem encoders_ignore_surplus {sdt} self duration events intervals
    more_events more_intervals more_rows (values : ndarray sdt) dt :
  length events = shape0 values →
  length intervals = shape0 values →
  encode_events time_to_frames self duration (events ++ more_events) values dt
    = encode_events time_to_frames self duration events values dt
  ∧ encode_intervals time_to_frames self duration
                     (intervals ++ more_intervals) values dt
    = encode_intervals time_to_frames self duration intervals values dt
  ∧ encode_events time_to_frames self duration events
                  (mk_ndarray (shape1 values) (rows values ++ more_rows)) dt
    = encode_events time_to_frames self duration events values dt
  ∧ encode_intervals time_to_frames self duration intervals
                     (mk_ndarray (shape1 values) (rows values ++ more_rows))
                     dt
    = encode_intervals time_to_frames self duration intervals values dt.
Proof.
  unfold shape0. intros He Hi.
  unfold encode_events, encode_intervals. simpl.
  rewrite !map_app.
  rewrite !zip_app_surplus_r by now rewrite !length_map.
  rewrite !zip_app_surplus_l by now rewrite !length_map.
  repeat split; reflexivity.
Qed.

(** X7: An interval whose clipped slice is empty (a zero-length interval, or one
    whose end frame does not exceed its start frame) writes nothing: if all
    intervals are such, the result is the all-fill array. *)
Theorem encode_intervals_empty_slices {sdt} self duration intervals
    (values : ndarray sdt) dt :
  0 ≤ frame_e self duration →
  Forall (λ iv, slice_bound (n_e self duration) (frame_e self iv.2)
                ≤ slice_bound (n_e self duration) (frame_e self iv.1))
         intervals →
  encode_intervals time_to_frames self duration intervals values dt
  = Ok (fill_array dt (frame_e self duration) (shape1 values)).
Proof.
  intros Hn Hall. apply encode_intervals_Ok. split; [exact Hn |].
  unfold fill_array. simpl. f_equal. apply list_eq. intros f.
  symmetry. apply intervals_loop_outside. rewrite length_replicate.
  apply (Forall_zip_snd
           (λ fr, in_slice (n_e self duration) fr.1 fr.2 f = false)).
  apply Forall_map. eapply Forall_impl; [exact Hall |].
  intros [s e] Hiv. simpl in *. unfold in_slice.
  apply andb_false_iff.
  destruct (Z.leb_spec (slice_bound (n_e self duration) (frame_e self s))
                       (Z.of_nat f)); [right | now left].
  apply Z.ltb_ge. lia.
Qed.

(** X8: A negative frame index counts from the end of the track: an event whose
    frame is [-k], with [1 <= k <= n_frames], is added onto row
    [n_frames - k]. *)
Theorem encode_events_negative_frame {sdt} self duration t
    (v : list (elem sdt)) m dt (k : nat) :
  0 ≤ frame_e self duration →
  frame_e self t = - Z.of_nat k →
  (1 ≤ k ≤ n_e self duration)%nat →
  encode_events time_to_frames self duration [t] (mk_ndarray m [v]) dt
  = Ok (mk_ndarray m
          (alter (λ row, row_iadd row (map (astype_scalar sdt dt) v))
                 (n_e self duration - k)%nat
                 (replicate (n_e self duration) (fill_row dt m)))).
Proof.
  intros Hn Ht Hk. unfold encode_events. simpl.
  rewrite np_full_nonneg by exact Hn. simpl.
  unfold iadd_index. rewrite length_replicate, Ht.
  unfold index_axis.
  destruct (Z.leb_spec 0 (- Z.of_nat k)); [lia |]. simpl.
  destruct (Z.leb_spec (- Z.of_nat (n_e self duration)) (- Z.of_nat k));
    [| lia].
  destruct (Z.ltb_spec (- Z.of_nat k) 0); [| lia]. simpl.
  do 3 f_equal. lia.
Qed.

End EdgeInputs.

(** ** Instances of the properties of the encoders *)

Lemma encode_events_rowwise_witness :
  encode_events time_to_frames_floor one_fps 3 [1%Q]
                (@mk_ndarray np_bool 1 [[true]]) np_bool
  = Ok (@mk_ndarray np_bool 1 [[false]; [true]; [false]])
  ∧ [[false]; [true]; [false]] !! 1%nat
    = Some (foldl row_iadd (fill_row np_bool 1)
              (hitting_columns 3
                 (event_pairs time_to_frames_floor one_fps [1%Q]
                              (@mk_ndarray np_bool 1 [[true]]) np_bool)
                 1)).
Proof.
  assert (H : encode_events time_to_frames_floor one_fps 3 [1%Q]
                            (@mk_ndarray np_bool 1 [[true]]) np_bool
              = Ok (@mk_ndarray np_bool 1 [[false]; [true]; [false]]))
    by (vm_compute; reflexivity).
  split; [exact H |].
  apply (encode_events_rowwise time_to_frames_floor one_fps 3%Q [1%Q]
           (@mk_ndarray np_bool 1 [[true]]) np_bool _ 1%nat H).
  unfold shape0. simpl. lia.
Defined.

Lemma encode_intervals_rowwise_witness :
  encode_intervals time_to_frames_floor one_fps 3 [(1, 3)%Q]
                   (@mk_ndarray np_bool 1 [[true]]) np_bool
  = Ok (@mk_ndarray np_bool 1 [[false]; [true]; [true]])
  ∧ [[false]; [true]; [true]] !! 2%nat
    = Some (foldl row_iadd (fill_row np_bool 1)
              (covering_columns 3
                 (interval_pairs time_to_frames_floor one_fps [(1, 3)%Q]
                                 (@mk_ndarray np_bool 1 [[true]]) np_bool)
                 2)).
Proof.
  assert (H : encode_intervals time_to_frames_floor one_fps 3 [(1, 3)%Q]
                               (@mk_ndarray np_bool 1 [[true]]) np_bool
              = Ok (@mk_ndarray np_bool 1 [[false]; [true]; [true]]))
    by (vm_compute; reflexivity).
  split; [exact H |].
  apply (encode_intervals_rowwise time_to_frames_floor one_fps 3%Q
           [(1, 3)%Q] (@mk_ndarray np_bool 1 [[true]]) np_bool _ 2%nat H).
  unfold shape0. simpl. lia.
Defined.

Lemma encoders_shape_witness :
  well_shaped two_ones
  ∧ ∀ r, encode_intervals time_to_frames_floor ten_fps 2
                          overlapping_intervals two_ones np_bool = Ok r →
         shape0 r = 20%nat ∧ shape1 r = 1%nat ∧ well_shaped r.
Proof.
  assert (H : well_shaped two_ones) by (repeat constructor).
  split; [exact H |].
  exact (proj2 (encoders_shape time_to_frames_floor ten_fps 2%Q []
                  overlapping_intervals two_ones np_bool H)).
Defined.

Lemma encoders_ignore_surplus_witness :
  encode_events time_to_frames_floor ten_fps 2 ([1; 3 # 2] ++ [1 # 2])%Q
                two_ones np_bool
  = encode_events time_to_frames_floor ten_fps 2 [1; 3 # 2]%Q two_ones
                  np_bool.
Proof.
  exact (proj1 (encoders_ignore_surplus time_to_frames_floor
                  (sdt := np_int 64) ten_fps 2%Q
                  [1; 3 # 2]%Q overlapping_intervals [1 # 2]%Q [(0, 2)%Q]
                  [[1]] two_ones np_bool eq_refl eq_refl)).
Defined.

Lemma encode_intervals_empty_slices_witness :
  encode_intervals time_to_frames_floor ten_fps 2 [(1, 1); (3 # 2, 1 # 2)]%Q
                   two_ones (np_int 64)
  = Ok (fill_array (np_int 64) (frame_of time_to_frames_floor ten_fps 2) 1).
Proof.
  apply (encode_intervals_empty_slices time_to_frames_floor ten_fps 2%Q
           [(1, 1); (3 # 2, 1 # 2)]%Q two_ones (np_int 64)).
  - vm_compute. discriminate.
  - repeat (apply Forall_cons; split); [| | by apply Forall_nil];
      vm_compute; discriminate.
Defined.

Lemma encode_events_negative_frame_witness :
  frame_of time_to_frames_floor ten_fps (-1 # 10) = -1
  ∧ encode_events time_to_frames_floor ten_fps 2 [(-1 # 10)%Q]
                  (@mk_ndarray (np_int 64) 1 [[1]]) (np_int 64)
    = Ok (mk_ndarray 1
            (alter (λ row, row_iadd row
                             (map (astype_scalar (np_int 64) (np_int 64)) [1]))
                   (Z.to_nat (frame_of time_to_frames_floor ten_fps 2) - 1)%nat
                   (replicate
                      (Z.to_nat (frame_of time_to_frames_floor ten_fps 2))
                      (fill_row (np_int 64) 1)))).
Proof.
  assert (H : frame_of time_to_frames_floor ten_fps (-1 # 10)
              = - Z.of_nat 1) by (vm_compute; reflexivity).
  split; [exact H |].
  apply (encode_events_negative_frame time_to_frames_floor
           (sdt := np_int 64) ten_fps 2%Q (-1 # 10)%Q [1] 1%nat (np_int 64)
           1%nat).
  - vm_compute. discriminate.
  - exact H.
  - split; [lia | vm_compute; lia].
Defined.

(** ** The order of the events and intervals *)

Lemma add_swap dt (x a b : elem dt) :
  is_exact dt = true → add dt (add dt x a) b = add dt (add dt x b) a.
Proof.
  destruct dt; simpl; try discriminate; intros _.
  - now destruct x, a, b.
  - rewrite !wrap_signed_add_l. f_equal. lia.
  - rewrite !wrap_unsigned_add_l. f_equal. lia.
Qed.

Lemma row_iadd_swap {dt} (row a b : list (elem dt)) :
  is_exact dt = true →
  row_iadd (row_iadd row a) b = row_iadd (row_iadd row b) a.
Proof.
  intros Hdt. unfold row_iadd. revert a b.
  induction row as [|x row IH]; intros [|y a] [|z b]; simpl; try reflexivity.
  f_equal; [now apply add_swap | apply IH].
Qed.

Lemma foldl_row_iadd_perm {dt} (cols cols' : list (list (elem dt))) :
  is_exact dt = true → cols ≡ₚ cols' →
  ∀ row, foldl row_iadd row cols = foldl row_iadd row cols'.
Proof.
  intros Hdt Hp.
  induction Hp as [| c l l' _ IH | c1 c2 l | l1 l2 l3 _ IH1 _ IH2];
    intros row; simpl.
  - reflexivity.
  - apply IH.
  - now rewrite row_iadd_swap.
  - now rewrite IH1.
Qed.

Lemma zip_map_fst_snd {A B C D} (h : A → C) (g : B → D) (ps : list (A * B)) :
  zip (map h (map fst ps)) (map g (map snd ps))
  = map (λ p, (h p.1, g p.2)) ps.
Proof. induction ps as [|[a b] ps IH]; simpl; [reflexivity | now rewrite IH]. Qed.

Section Orderings.

Variable time_to_frames : Q → Q → Z → Z.

Abbreviation frame_o := (frame_of time_to_frames).
Abbreviation n_o self duration :=
  (Z.to_nat (frame_of time_to_frames self duration)).

(** X9: At a boolean or integer dtype the array [encode_intervals] returns does
    not depend on the order in which the intervals, with their value rows,
    are listed. *)
Theorem encode_intervals_permutation {sdt} self duration m
    (ps ps' : list (list (elem sdt) * (Q * Q))) dt :
  is_exact dt = true →
  ps ≡ₚ ps' →
  encode_intervals time_to_frames self duration (map snd ps)
                   (mk_ndarray m (map fst ps)) dt
  = encode_intervals time_to_frames self duration (map snd ps')
                     (mk_ndarray m (map fst ps')) dt.
Proof.
  intros Hdt Hp. unfold encode_intervals. simpl.
  destruct (np_full dt (frame_o self duration) m (fill_value dt))
    as [t|e]; simpl; [| reflexivity].
  do 2 f_equal. apply list_eq. intros f.
  rewrite !intervals_loop_pointwise.
  destruct (t !! f) as [row|]; simpl; [| reflexivity].
  f_equal. apply foldl_row_iadd_perm; [exact Hdt |].
  unfold covering_columns. rewrite !zip_map_fst_snd.
  apply fmap_Permutation, filter_Permutation, fmap_Permutation, Hp.
Qed.

(** X10: At a boolean or integer dtype the outcome of [encode_events], the array
    or the error, does not depend on the order in which the events, with
    their value rows, are listed. *)
Theorem encode_events_permutation {sdt} self duration m
    (ps ps' : list (list (elem sdt) * Q)) dt :
  is_exact dt = true →
  ps ≡ₚ ps' →
  encode_events time_to_frames self duration (map snd ps)
                (mk_ndarray m (map fst ps)) dt
  = encode_events time_to_frames self duration (map snd ps')
                  (mk_ndarray m (map fst ps')) dt.
Proof.
  intros Hdt Hp. unfold encode_events. simpl.
  destruct (np_full dt (frame_o self duration) m (fill_value dt))
    as [t|e]; simpl; [| reflexivity].
  rewrite !zip_map_fst_snd.
  set (cast := λ p : list (elem sdt) * Q,
                 (map (astype_scalar sdt dt) p.1, frame_o self p.2)).
  assert (Hq : map cast ps ≡ₚ map cast ps') by now apply fmap_Permutation.
  destruct (Forall_Exists_dec
              (λ p : list (elem dt) * Z,
                 is_ok (index_axis (length t) p.2) = true)
              (λ p, is_ok (index_axis (length t) p.2) ≠ true)
              (λ p, decide _) (map cast ps)) as [Hall | Hex].
  - destruct (events_loop_in_range _ t Hall) as [t1 H1].
    assert (Hall' := Hall). rewrite Hq in Hall'.
    destruct (events_loop_in_range _ t Hall') as [t2 H2].
    rewrite H1, H2. simpl. do 2 f_equal. apply list_eq. intros f.
    destruct (t !! f) as [row|] eqn:Hrow.
    + rewrite (events_loop_pointwise _ _ _ _ _ H1 Hrow).
      rewrite (events_loop_pointwise _ _ _ _ _ H2 Hrow).
      f_equal. apply foldl_row_iadd_perm; [exact Hdt |].
      unfold hitting_columns.
      apply fmap_Permutation, filter_Permutation, Hq.
    + apply lookup_ge_None in Hrow.
      rewrite !(proj2 (lookup_ge_None _ _)); [reflexivity | |].
      * now rewrite (events_loop_length _ _ _ H2).
      * now rewrite (events_loop_length _ _ _ H1).
  - assert (Hex1 : Exists (λ p : list (elem dt) * Z,
                             is_ok (index_axis (length t) p.2) = false)
                          (map cast ps)).
    { eapply Exists_impl; [exact Hex |]. intros p Hp'.
      now apply not_true_is_false. }
    assert (Hex2 := Hex1). rewrite Hq in Hex2.
    now rewrite !events_loop_out_of_range.
Qed.

End Orderings.

Lemma encode_intervals_permutation_witness :
  is_exact (np_int 64) = true
  ∧ encode_intervals time_to_frames_floor ten_fps 2
      [(0, 1); (1 # 2, 3 # 2)]%Q (@mk_ndarray (np_int 64) 1 [[1]; [2]])
      (np_int 64)
    = encode_intervals time_to_frames_floor ten_fps 2
        [(1 # 2, 3 # 2); (0, 1)]%Q (@mk_ndarray (np_int 64) 1 [[2]; [1]])
        (np_int 64).
Proof.
  split; [reflexivity |].
  apply (encode_intervals_permutation time_to_frames_floor
           (sdt := np_int 64) ten_fps 2%Q 1%nat
           [([1], (0, 1)%Q); ([2], (1 # 2, 3 # 2)%Q)]
           [([2], (1 # 2, 3 # 2)%Q); ([1], (0, 1)%Q)]
           (np_int 64)); [reflexivity | apply perm_swap].
Defined.

Lemma encode_events_permutation_witness :
  is_exact np_bool = true
  ∧ encode_events time_to_frames_floor ten_fps 2
      [1 # 2; 3 # 2]%Q (@mk_ndarray np_bool 2 [[true; false]; [false; true]])
      np_bool
    = encode_events time_to_frames_floor ten_fps 2
        [3 # 2; 1 # 2]%Q
        (@mk_ndarray np_bool 2 [[false; true]; [true; false]]) np_bool.
Proof.
  split; [reflexivity |].
  apply (encode_events_permutation time_to_frames_floor
           (sdt := np_bool) ten_fps 2%Q 2%nat
           [([true; false], (1 # 2)%Q); ([false; true], (3 # 2)%Q)]
           [([false; true], (3 # 2)%Q); ([true; false], (1 # 2)%Q)]
           np_bool); [reflexivity | apply perm_swap].
Defined.

(** ** The beat transformer: outcomes and keys *)

Lemma Exists_zip_snd {A B} (P : B → Prop) (l : list A) (k : list B) :
  length l = length k → Exists P k → Exists (λ p, P p.2) (zip l k).
Proof.
  revert l. induction k as [|y k IH]; intros [|x l] Hlen Hex; simpl in *;
    try discriminate.
  - now apply Exists_nil in Hex.
  - apply Exists_cons in Hex as [Hy | Hex].
    + now apply Exists_cons_hd.
    + apply Exists_cons_tl, IH; [lia | exact Hex].
Qed.

Section BeatOutcomes.

Variable time_to_frames : Q → Q → Z → Z.

Abbreviation frame_b := (frame_of time_to_frames).
Abbreviation n_b self duration :=
  (Z.to_nat (frame_of time_to_frames self duration)).

Lemma encode_events_negative_count {sdt} self duration events
    (values : ndarray sdt) dt :
  frame_b self duration < 0 →
  encode_events time_to_frames self duration events values dt
  = Raise ValueError.
Proof.
  intros Hn. unfold encode_events, np_full.
  now rewrite (proj2 (Z.ltb_lt _ _) Hn).
Qed.

Lemma encode_events_ones_out_of_range self duration events :
  0 ≤ frame_b self duration →
  Exists (λ t, is_ok (index_axis (n_b self duration) (frame_b self t))
               = false) events →
  encode_events time_to_frames self duration events
                (np_ones (length events)) np_bool
  = Raise IndexError.
Proof.
  intros Hn Hex. apply encode_events_out_of_range; [exact Hn |].
  apply (Exists_zip_snd
           (λ e, is_ok (index_axis (n_b self duration) e) = false)).
  - simpl. now rewrite !length_map, length_replicate.
  - now apply Exists_map.
Qed.

Lemma transform_annotation_dom self ann duration r :
  transform_annotation time_to_frames self ann duration = Ok r →
  dom r = ({["beat"; "downbeat"; "mask_downbeat"]} : gset string).
Proof.
  rewrite transform_annotation_unfold.
  intros (beat & _ & (down & _ & [= <-])%bind_Ok)%bind_Ok.
  rewrite !dom_insert_L, dom_empty_L. set_solver.
Qed.

(** X11: The outcomes of [BeatTransformer.transform_annotation]: it returns
    exactly when the frame count of the track is non-negative and every
    onset has its frame within [-n_frames, n_frames), and then with the keys
    [beat], [downbeat] and [mask_downbeat]; it raises [ValueError] exactly
    on a negative frame count, [IndexError] exactly on an onset out of
    range, and nothing else. *)
Theorem beat_transform_annotation_outcomes self ann duration :
  match transform_annotation time_to_frames self ann duration with
  | Ok r =>
      0 ≤ frame_b self duration
      ∧ Forall (λ o, in_range (n_b self duration)
                              (frame_b self (obs_time o)) = true)
               (ann_data ann)
      ∧ dom r = ({["beat"; "downbeat"; "mask_downbeat"]} : gset string)
  | Raise e =>
      (e = ValueError ∧ frame_b self duration < 0)
      ∨ (e = IndexError ∧ 0 ≤ frame_b self duration
         ∧ Exists (λ o, in_range (n_b self duration)
                                 (frame_b self (obs_time o)) = false)
                  (ann_data ann))
  end.
Proof.
  destruct (transform_annotation time_to_frames self ann duration)
    as [r|e] eqn:Hr.
  - pose proof (transform_annotation_dom _ _ _ _ Hr) as Hdom.
    rewrite transform_annotation_unfold in Hr.
    apply bind_Ok in Hr as (beat & Hbeat & _).
    assert (Hn : 0 ≤ frame_b self duration).
    { apply encode_events_Ok in Hbeat. tauto. }
    split; [exact Hn |]. split; [| exact Hdom].
    unfold in_range.
    destruct (Forall_Exists_dec
                (λ o, is_ok (index_axis (n_b self duration)
                                        (frame_b self (obs_time o))) = true)
                (λ o, is_ok (index_axis (n_b self duration)
                                        (frame_b self (obs_time o))) ≠ true)
                (λ o, decide _) (ann_data ann)) as [Hall | Hex];
      [exact Hall |].
    rewrite encode_events_ones_out_of_range in Hbeat;
      [discriminate | exact Hn |].
    apply Exists_map. eapply Exists_impl; [exact Hex |].
    intros o Ho. now apply not_true_is_false.
  - rewrite transform_annotation_unfold in Hr. unfold in_range.
    destruct (Z.ltb_spec (frame_b self duration) 0) as [Hn | Hn].
    { rewrite !encode_events_negative_count in Hr by exact Hn.
      simpl in Hr. injection Hr as <-. left. now split. }
    right.
    destruct (Forall_Exists_dec
                (λ o, is_ok (index_axis (n_b self duration)
                                        (frame_b self (obs_time o))) = true)
                (λ o, is_ok (index_axis (n_b self duration)
                                        (frame_b self (obs_time o))) ≠ true)
                (λ o, decide _) (ann_data ann)) as [Hall | Hex].
    + exfalso.
      destruct (encode_events_ones_total time_to_frames self duration
                  (map obs_time (ann_data ann)) Hn) as [beat Hbeat].
      { now apply Forall_map. }
      rewrite Hbeat in Hr. simpl in Hr.
      destruct (existsb id _).
      * destruct (encode_events_ones_total time_to_frames self duration
                    (mask_index (map obs_time (ann_data ann))
                       (map (λ o, value_eq_1 (obs_value o)) (ann_data ann)))
                    Hn) as [down Hdown].
        { apply mask_index_Forall. now apply Forall_map. }
        rewrite Hdown in Hr. discriminate Hr.
      * rewrite encode_events_nil in Hr by exact Hn. discriminate Hr.
    + assert (Hex' : Exists (λ o, is_ok (index_axis (n_b self duration)
                                           (frame_b self (obs_time o)))
                                  = false) (ann_data ann)).
      { eapply Exists_impl; [exact Hex |].
        intros o Ho. now apply not_true_is_false. }
      rewrite (encode_events_ones_out_of_range self duration
                 (map obs_time (ann_data ann))) in Hr;
        [| exact Hn | now apply Exists_map].
      simpl in Hr. injection Hr as <-. now repeat split.
Qed.

(** X12: Every downbeat is a beat: on a frame where the downbeat field is true,
    the beat field is true. *)
Theorem beat_downbeat_is_beat self ann duration r :
  transform_annotation time_to_frames self ann duration = Ok r →
  ∃ beat downbeat,
    r !! "beat" = Some (Array np_bool beat)
    ∧ r !! "downbeat" = Some (Array np_bool downbeat)
    ∧ ∀ f, rows downbeat !! f = Some [true] → rows beat !! f = Some [true].
Proof.
  intros Hr. rewrite transform_annotation_unfold in Hr.
  set (data := ann_data ann) in *.
  apply bind_Ok in Hr as (beat & Hbeat & Hr).
  apply bind_Ok in Hr as (down & Hdown & [= <-]).
  exists beat, down. split; [reflexivity |]. split; [reflexivity |].
  intros f Hf.
  apply encode_events_ones in Hbeat as [Hbn Hbeat].
  assert (Hn : 0 ≤ frame_b self duration).
  { destruct (existsb id _); apply encode_events_Ok in Hdown; tauto. }
  assert (Hdn : shape0 down = n_b self duration).
  { destruct (existsb id _); eapply encode_events_shape, Hdown. }
  assert (Hlt : (f < n_b self duration)%nat).
  { rewrite <- Hdn. unfold shape0. eapply lookup_lt_Some, Hf. }
  rewrite (Hbeat f Hlt). do 2 f_equal. rewrite existsb_map.
  destruct (existsb id _) eqn:Hany.
  - apply encode_events_ones in Hdown as [_ Hdown].
    rewrite (Hdown f Hlt) in Hf. injection Hf as Hf.
    rewrite (existsb_mask_index obs_time
               (λ o, value_eq_1 (obs_value o))) in Hf.
    apply existsb_exists in Hf as (o & Hin & Ho).
    apply existsb_exists. exists o. split; [exact Hin |].
    apply andb_true_iff in Ho. tauto.
  - rewrite encode_events_nil in Hdown by exact Hn.
    injection Hdown as <-. simpl in Hf.
    rewrite lookup_replicate_2 in Hf by exact Hlt. discriminate Hf.
Qed.

(** X13: The keys of a record that [BeatTransformer.transform_annotation]
    returns are the fields the constructor registers. *)
Theorem beat_record_keys_registered name sr hop_length :
  ∃ self fields,
    BeatTransformer_init name sr hop_length = Ok (self, fields)
    ∧ namespace self = "beat"
    ∧ ∀ ann duration r,
        transform_annotation time_to_frames self ann duration = Ok r →
        dom r = dom fields.
Proof.
  do 2 eexists. split; [reflexivity |]. split; [reflexivity |].
  intros ann duration r Hr.
  rewrite (transform_annotation_dom _ _ _ _ Hr).
  rewrite !dom_insert_L, dom_empty_L. set_solver.
Qed.

End BeatOutcomes.

Lemma beat_downbeat_is_beat_witness :
  transform_annotation time_to_frames_floor one_fps two_beats 3
  = Ok two_beats_record
  ∧ ∃ beat downbeat,
      two_beats_record !! "beat" = Some (Array np_bool beat)
      ∧ two_beats_record !! "downbeat" = Some (Array np_bool downbeat)
      ∧ ∀ f, rows downbeat !! f = Some [true] →
             rows beat !! f = Some [true].
Proof.
  assert (H : transform_annotation time_to_frames_floor one_fps two_beats 3
              = Ok two_beats_record) by (vm_compute; reflexivity).
  split; [exact H |].
  exact (beat_downbeat_is_beat time_to_frames_floor one_fps two_beats 3%Q
           two_beats_record H).
Defined.

(** ** The annotation orchestrator: structure and errors *)

Section TransformStructure.

Variable time_to_frames : Q → Q → Z → Z.
Variable convert : Annotation → string → result Annotation.
Variable Query : Type.
Variable search : JAMS → Query → list Annotation.
Variable hook :
  BaseTaskTransformer → Annotation → Q → result (gmap string field_value).
Variable merge' :
  BaseTaskTransformer → list (gmap string field_value) →
  result (gmap string field_value).

Abbreviation convert_all_ := (convert_all convert).
Abbreviation apply_all_ := (apply_all time_to_frames hook).
Abbreviation recorded self duration :=
  (λ ann r, ∃ r0, hook self ann duration = Ok r0
                  ∧ r = with_valid time_to_frames self ann duration r0).

Lemma convert_all_converted self l :
  Forall (converts_or_skips convert self) l →
  convert_all_ self l = Ok (converted convert self l).
Proof.
  unfold converted.
  induction 1 as [|a l Ha _ IH]; simpl; [reflexivity |].
  destruct (convert a (namespace self)) as [a'|e] eqn:Hc.
  - now rewrite IH.
  - rewrite (Ha e Hc) in *. exact IH.
Qed.

Lemma convert_all_first_error self l1 a l2 e :
  Forall (converts_or_skips convert self) l1 →
  convert a (namespace self) = Raise e → e ≠ NamespaceError →
  convert_all_ self (l1 ++ a :: l2) = Raise e.
Proof.
  intros Hl1 Ha He.
  induction Hl1 as [|x l1 Hx _ IH]; simpl.
  - rewrite Ha. now destruct e.
  - destruct (convert x (namespace self)) as [x'|e'] eqn:Hc.
    + now rewrite IH.
    + now rewrite (Hx e' Hc).
Qed.

Lemma convert_all_Ok_inv self l anns :
  convert_all_ self l = Ok anns →
  Forall (converts_or_skips convert self) l.
Proof.
  revert anns. induction l as [|a l IH]; simpl; intros anns H;
    [constructor |].
  destruct (convert a (namespace self)) as [a'|e] eqn:Hc.
  - apply bind_Ok in H as (anns' & H & _).
    constructor; [| eapply IH, H].
    intros e' He'. unfold converts_or_skips in *. congruence.
  - destruct e; try discriminate H.
    constructor; [| eapply IH, H].
    intros e' He'. congruence.
Qed.

Lemma convert_all_Raise_inv self l e :
  convert_all_ self l = Raise e →
  e ≠ NamespaceError
  ∧ ∃ l1 a l2, l = l1 ++ a :: l2
      ∧ Forall (converts_or_skips convert self) l1
      ∧ convert a (namespace self) = Raise e.
Proof.
  intros H. split.
  { intros ->. eapply convert_all_absorbs, H. }
  induction l as [|a l IH]; simpl in H; [discriminate |].
  destruct (convert a (namespace self)) as [a'|e'] eqn:Hc.
  - destruct (convert_all_ self l) as [anns|e''] eqn:Hl; [discriminate |].
    injection H as ->.
    destruct (IH eq_refl) as (l1 & b & l2 & -> & Hl1 & Hb).
    exists (a :: l1), b, l2. split; [reflexivity |].
    split; [| exact Hb]. constructor; [| exact Hl1].
    intros e' He'. congruence.
  - assert (Hcase : e' = NamespaceError ∨ e = e').
    { destruct e'; try (right; now injection H); now left. }
    destruct Hcase as [-> | ->].
    + destruct (IH H) as (l1 & b & l2 & -> & Hl1 & Hb).
      exists (a :: l1), b, l2. split; [reflexivity |].
      split; [| exact Hb]. constructor; [| exact Hl1].
      intros e' He'. congruence.
    + exists [], a, l. split; [reflexivity |]. split; [constructor |].
      exact Hc.
Qed.

Lemma apply_all_Forall2 self anns duration rs :
  apply_all_ self anns duration = Ok rs ↔
  Forall2 (recorded self duration) anns rs.
Proof.
  revert rs. induction anns as [|a anns IH]; simpl; intros rs.
  - split.
    + intros [= <-]. constructor.
    + intros H. apply Forall2_nil_inv_l in H. now subst.
  - split.
    + intros (r0 & Hr0 & (rs' & Hrs' & [= <-])%bind_Ok)%bind_Ok.
      constructor; [| now apply IH].
      exists r0. split; [exact Hr0 | reflexivity].
    + intros H. apply Forall2_cons_inv_l in H
        as (r & rs' & (r0 & Hr0 & ->) & Hrs' & ->).
      rewrite Hr0. simpl. apply IH in Hrs'. rewrite Hrs'. reflexivity.
Qed.

Lemma apply_all_first_error self l1 a l2 duration e :
  Forall (λ x, is_ok (hook self x duration) = true) l1 →
  hook self a duration = Raise e →
  apply_all_ self (l1 ++ a :: l2) duration = Raise e.
Proof.
  intros Hl1 Ha. induction Hl1 as [|x l1 Hx _ IH]; simpl.
  - now rewrite Ha.
  - destruct (hook self x duration) as [r|e']; [| discriminate Hx].
    simpl. now rewrite IH.
Qed.

(** X14: The conversion loop of [transform]: it returns exactly when every
    candidate converts or raises [NamespaceError], and then with the
    candidates that convert, converted, in their order; otherwise it raises
    the error of the first candidate that raises something else. *)
Theorem convert_all_outcomes self l :
  match convert_all_ self l with
  | Ok anns =>
      Forall (converts_or_skips convert self) l
      ∧ anns = converted convert self l
  | Raise e =>
      e ≠ NamespaceError
      ∧ ∃ l1 a l2, l = l1 ++ a :: l2
          ∧ Forall (converts_or_skips convert self) l1
          ∧ convert a (namespace self) = Raise e
  end.
Proof.
  destruct (convert_all_ self l) as [anns|e] eqn:H.
  - pose proof (convert_all_Ok_inv _ _ _ H) as Hall.
    split; [exact Hall |].
    rewrite (convert_all_converted _ _ Hall) in H. now injection H.
  - now apply convert_all_Raise_inv.
Qed.

(** X15: When [transform] reaches the merge, it hands over at least one record:
    one for each candidate that converts, in order, or one for the
    synthesized annotation if none does.  Each is the record of the hook
    with [_valid] set to the frames of the validity window of its
    annotation, whatever the hook stored under that key. *)
Theorem transform_results_records self jam query rs :
  let duration := file_metadata_duration jam in
  transform_results time_to_frames convert Query search hook self jam query
  = Ok rs →
  rs ≠ []
  ∧ Forall2 (recorded self duration)
      (or_empty self duration
         (converted convert self (candidates search jam query))) rs
  ∧ Forall (λ r, is_Some (r !! "_valid")) rs.
Proof.
  intros duration H. unfold transform_results in H.
  apply bind_Ok in H as (anns & Hanns & H).
  pose proof (convert_all_Ok_inv _ _ _ Hanns) as Hall.
  rewrite (convert_all_converted _ _ Hall) in Hanns.
  injection Hanns as <-.
  apply apply_all_Forall2 in H. fold duration in H.
  change (match converted convert self (candidates search jam query) with
          | [] => [empty self duration]
          | _ => converted convert self (candidates search jam query)
          end)
    with (or_empty self duration
            (converted convert self (candidates search jam query))) in H.
  split; [| split; [exact H |]].
  - intros ->. apply Forall2_nil_inv_r in H.
    unfold or_empty in H.
    now destruct (converted _ _ _).
  - clear Hall. induction H as [|a r l k (r0 & _ & ->) _ IH];
      constructor; [| exact IH].
    unfold with_valid. rewrite lookup_insert_eq. now eexists.
Qed.

(** X16: An error of the converter other than [NamespaceError] is not caught:
    [transform] raises the first such error. *)
Theorem transform_raises_conversion_error self jam query l1 a l2 e :
  candidates search jam query = l1 ++ a :: l2 →
  Forall (converts_or_skips convert self) l1 →
  convert a (namespace self) = Raise e →
  e ≠ NamespaceError →
  transform time_to_frames convert Query search hook merge' self jam query
  = Raise e.
Proof.
  intros Hc Hl1 Ha He. unfold transform, transform_results.
  change (match query with
          | Some q => search jam q
          | None => annotations jam
          end) with (candidates search jam query).
  rewrite Hc, (convert_all_first_error _ _ _ _ _ Hl1 Ha He). reflexivity.
Qed.

(** X17: An error of the hook is not caught: [transform] raises the error of the
    first annotation, among those it applies the hook to, on which the hook
    fails, and does not reach the merge. *)
Theorem transform_raises_hook_error self jam query l1 a l2 e :
  let duration := file_metadata_duration jam in
  Forall (converts_or_skips convert self) (candidates search jam query) →
  or_empty self duration
    (converted convert self (candidates search jam query))
  = l1 ++ a :: l2 →
  Forall (λ x, is_ok (hook self x duration) = true) l1 →
  hook self a duration = Raise e →
  transform time_to_frames convert Query search hook merge' self jam query
  = Raise e.
Proof.
  intros duration Hall Hanns Hl1 Ha. unfold transform, transform_results.
  change (match query with
          | Some q => search jam q
          | None => annotations jam
          end) with (candidates search jam query).
  rewrite (convert_all_converted _ _ Hall). simpl. fold duration.
  change (match converted convert self (candidates search jam query) with
          | [] => [empty self duration]
          | _ => converted convert self (candidates search jam query)
          end)
    with (or_empty self duration
            (converted convert self (candidates search jam query))).
  rewrite Hanns, (apply_all_first_error _ _ _ _ _ _ Hl1 Ha). reflexivity.
Qed.

End TransformStructure.

Lemma dom_union_with_merge (m1 m2 : gmap string field_value) :
  dom (union_with (λ x y, Some (merge_value x y)) m1 m2) = dom m1 ∪ dom m2.
Proof.
  apply set_eq. intros k.
  rewrite elem_of_union, !elem_of_dom, lookup_union_with.
  destruct (m1 !! k), (m2 !! k); simpl; unfold is_Some; split;
    try (intros [[x Hx] | [x Hx]]); try (intros [x Hx]);
    try discriminate; eauto.
Qed.

Lemma dom_foldl_merge (X : gset string) rs : ∀ r : gmap string field_value,
  dom r = X → Forall (λ r', dom r' = X) rs →
  dom (foldl (union_with (λ x y, Some (merge_value x y))) r rs) = X.
Proof.
  induction rs as [|r' rs IH]; simpl; intros r Hr Hall; [exact Hr |].
  apply Forall_cons in Hall as [Hr' Hall].
  apply IH; [| exact Hall].
  rewrite dom_union_with_merge, Hr, Hr'. apply union_idemp_L.
Qed.

Section BeatKeys.

Variable time_to_frames : Q → Q → Z → Z.
Variable convert : Annotation → string → result Annotation.
Variable Query : Type.
Variable search : JAMS → Query → list Annotation.

(** X18: Whatever the annotations are, the mapping that the [transform] of the
    beat transformer returns has exactly the keys [beat], [downbeat],
    [mask_downbeat] and [_valid] under the prefix of the transformer. *)
Theorem beat_transform_keys self jam query out :
  transform time_to_frames convert Query search
            (transform_annotation time_to_frames) merge self jam query
  = Ok out →
  dom out = set_map (scope self) beat_keys.
Proof.
  unfold transform. intros (rs & Hrs & Hout)%bind_Ok.
  unfold transform_results in Hrs.
  apply bind_Ok in Hrs as (anns & _ & Hrs).
  set (anns' := match anns with
                | [] => [empty self (file_metadata_duration jam)]
                | _ => anns
                end) in Hrs.
  assert (Hne : anns' ≠ []) by (subst anns'; now destruct anns).
  apply apply_all_Forall2 in Hrs.
  assert (Hdom : Forall (λ r, dom r = beat_keys) rs).
  { clear Hout Hne. induction Hrs as [|a r l k (r0 & Hr0 & ->) _ IH];
      constructor; [| exact IH].
    unfold with_valid. rewrite dom_insert_L.
    rewrite (transform_annotation_dom _ _ _ _ _ Hr0).
    unfold beat_keys. set_solver. }
  destruct rs as [|r rs].
  { apply Forall2_nil_inv_r in Hrs. contradiction. }
  apply Forall_cons in Hdom as [Hr Hdom].
  simpl in Hout. injection Hout as <-.
  rewrite dom_kmap_L by apply scope_inj. f_equal. now apply dom_foldl_merge.
Qed.

End BeatKeys.

Lemma transform_results_records_witness :
  transform_results time_to_frames_floor nsconvert_same unit (λ _ _, [])
                    (transform_annotation time_to_frames_floor) one_fps
                    (mk_jams [chord_annotation; two_beats] 3) None
  = Ok [<["_valid" := Valid 0 3]> two_beats_record]
  ∧ [<["_valid" := Valid 0 3]> two_beats_record] ≠ [].
Proof.
  assert (H : transform_results time_to_frames_floor nsconvert_same unit
                (λ _ _, []) (transform_annotation time_to_frames_floor)
                one_fps (mk_jams [chord_annotation; two_beats] 3) None
              = Ok [<["_valid" := Valid 0 3]> two_beats_record])
    by (vm_compute; reflexivity).
  split; [exact H |].
  exact (proj1 (transform_results_records time_to_frames_floor
                  nsconvert_same unit (λ _ _, [])
                  (transform_annotation time_to_frames_floor) one_fps
                  (mk_jams [chord_annotation; two_beats] 3) None _ H)).
Defined.

Lemma transform_raises_conversion_error_witness :
  transform time_to_frames_floor (λ _ _, Raise KeyError) unit (λ _ _, [])
            (transform_annotation time_to_frames_floor) merge
            beat_22050_512 (mk_jams [chord_annotation] 5) None
  = Raise KeyError.
Proof.
  apply (transform_raises_conversion_error time_to_frames_floor
           (λ _ _, Raise KeyError) unit (λ _ _, [])
           (transform_annotation time_to_frames_floor) merge
           beat_22050_512 (mk_jams [chord_annotation] 5) None
           [] chord_annotation []).
  - reflexivity.
  - constructor.
  - reflexivity.
  - discriminate.
Defined.

Lemma transform_raises_hook_error_witness :
  transform time_to_frames_floor nsconvert_same unit (λ _ _, [])
            (transform_annotation time_to_frames_floor) merge
            beat_22050_512
            (mk_jams [mk_annotation "beat" None None
                        [mk_observation 5 0 None]] 5) None
  = Raise IndexError.
Proof.
  apply (transform_raises_hook_error time_to_frames_floor
           nsconvert_same unit (λ _ _, [])
           (transform_annotation time_to_frames_floor) merge
           beat_22050_512
           (mk_jams [mk_annotation "beat" None None
                       [mk_observation 5 0 None]] 5) None
           [] (mk_annotation "beat" None None [mk_observation 5 0 None]) []).
  - repeat constructor. intros e H. vm_compute in H. discriminate H.
  - reflexivity.
  - constructor.
  - vm_compute. reflexivity.
Defined.

Lemma beat_transform_keys_witness :
  beat_transform time_to_frames_floor one_fps (mk_jams [two_beats] 3)
  = merge one_fps [<["_valid" := Valid 0 3]> two_beats_record]
  ∧ ∃ out, merge one_fps [<["_valid" := Valid 0 3]> two_beats_record]
           = Ok out
           ∧ dom out = set_map (scope one_fps) beat_keys.
Proof.
  assert (H : beat_transform time_to_frames_floor one_fps
                             (mk_jams [two_beats] 3)
              = merge one_fps [<["_valid" := Valid 0 3]> two_beats_record])
    by (vm_compute; reflexivity).
  split; [exact H |].
  eexists. split; [reflexivity |].
  exact (beat_transform_keys time_to_frames_floor nsconvert_same unit
           (λ _ _, []) one_fps (mk_jams [two_beats] 3) None _ H).
Defined.

(** ** The feature extractors and their field schemas *)

Lemma conforms_one k d (a : ndarray (field_dtype d)) :
  field_shape d = [None; Some (shape1 a)] →
  conforms {[k := d]} {[k := Array (field_dtype d) a]}.
Proof.
  intros Hs. split.
  - now rewrite !dom_singleton_L.
  - apply map_Forall_singleton. exists a.
    split; [apply lookup_singleton_eq | exact Hs].
Qed.

Lemma conforms_two k1 k2 d1 d2 (a1 : ndarray (field_dtype d1))
    (a2 : ndarray (field_dtype d2)) :
  k1 ≠ k2 →
  field_shape d1 = [None; Some (shape1 a1)] →
  field_shape d2 = [None; Some (shape1 a2)] →
  conforms (<[k1 := d1]> {[k2 := d2]})
           (<[k1 := Array (field_dtype d1) a1]>
              {[k2 := Array (field_dtype d2) a2]}).
Proof.
  intros Hne Hs1 Hs2. split.
  - now rewrite !dom_insert_L, !dom_singleton_L.
  - apply map_Forall_insert_2; [| apply map_Forall_singleton].
    + exists a1. split; [apply lookup_insert_eq | exact Hs1].
    + exists a2. split; [| exact Hs2].
      rewrite lookup_insert_ne by exact Hne. apply lookup_singleton_eq.
Qed.

Section STFTConformance.

Variable Audio : Type.
Variable magphase_stft :
  Audio → Z → Z → result (ndarray np_float * ndarray np_float).
Variable phase_diff : field_value → field_value.

(** X19: If the STFT of the library has [1 + n_fft // 2] bins and the phase
    differential keeps the shape of the phase, then what [transform_audio]
    returns conforms to the fields the constructor registers, for [STFT],
    [STFTMag] and [STFTPhaseDiff]; the three constructors never fail. *)
Theorem stft_data_conforms name sr hop_length n_fft y :
  stft_bins magphase_stft →
  phase_diff_keeps_shape phase_diff →
  ∃ parent mag_only diff,
    FFT.STFT_init name sr hop_length n_fft = Ok parent
    ∧ FFT.STFTMag_init name sr hop_length n_fft = Ok mag_only
    ∧ FFT.STFTPhaseDiff_init name sr hop_length n_fft = Ok diff
    ∧ (∀ data, FFT.STFT_transform_audio Audio magphase_stft parent y
               = Ok data →
               conforms (FFT.fields parent) data)
    ∧ (∀ data, FFT.STFTMag_transform_audio Audio magphase_stft mag_only y
               = Ok data →
               conforms (FFT.fields mag_only) data)
    ∧ (∀ data, FFT.STFTPhaseDiff_transform_audio Audio magphase_stft
                 phase_diff diff y = Ok data →
               conforms (FFT.fields diff) data).
Proof.
  intros Hlib Hpd.
  set (F := mk_field [None; Some (Z.to_nat (1 + n_fft / 2))] np_float).
  exists (FFT.mk_STFT name sr hop_length n_fft
            (<["mag" := F]> {["phase" := F]})),
         (FFT.mk_STFT name sr hop_length n_fft {["mag" := F]}),
         (FFT.mk_STFT name sr hop_length n_fft
            (<["mag" := F]> {["dphase" := F]})).
  split; [reflexivity |]. split; [reflexivity |]. split; [reflexivity |].
  unfold FFT.STFTMag_transform_audio, FFT.STFTPhaseDiff_transform_audio,
    FFT.STFT_transform_audio.
  cbn [FFT.fields FFT.hop_length FFT.n_fft].
  destruct (magphase_stft y hop_length n_fft) as [[mag phase]|e] eqn:Hm;
    simpl; [| repeat split; discriminate].
  destruct (Hlib _ _ _ _ _ Hm) as [Hmag Hphase].
  split; [| split]; intros data Hd.
  - injection Hd as <-.
    apply (conforms_two "mag" "phase" F F mag phase); [discriminate | |];
      simpl; congruence.
  - assert (Hd' : Ok {["mag" := Array np_float mag]} = Ok data) by exact Hd.
    injection Hd' as <-.
    apply (conforms_one "mag" F mag). simpl. congruence.
  - assert (Hd' : Ok (<["mag" := Array np_float mag]>
                        {["dphase" := phase_diff (Array np_float phase)]})
                  = Ok data) by exact Hd.
    injection Hd' as <-.
    destruct (Hpd np_float phase) as (b & -> & Hb).
    apply (conforms_two "mag" "dphase" F F mag b); [discriminate | |];
      simpl; congruence.
Qed.

End STFTConformance.

Section CQTConformance.

Variable Audio : Type.
Variable magphase_cqt :
  Audio → Q → Z → Q → Z → Z → result (ndarray np_float * ndarray np_float).
Variable phase_diff : field_value → field_value.

(** X20: If the constant-Q transform of the library has [n_bins] bins and the
    phase differential keeps the shape of the phase, then what
    [transform_audio] returns conforms to the fields the constructor
    registers, for [CQT], [CQTMag] and [CQTPhaseDiff]: the bin count the
    constructor declares, [n_octaves * 12 * over_sample], is the one
    [transform_audio] asks the library for.  The constructors never fail
    and fall back to the frequency of C1 when [fmin] is not given. *)
Theorem cqt_data_conforms C1_hz name sr hop_length n_octaves over_sample
    fmin y :
  cqt_bins magphase_cqt →
  phase_diff_keeps_shape phase_diff →
  ∃ parent mag_only diff,
    Cqt.CQT_init C1_hz name sr hop_length n_octaves over_sample fmin
    = Ok parent
    ∧ Cqt.CQTMag_init C1_hz name sr hop_length n_octaves over_sample fmin
      = Ok mag_only
    ∧ Cqt.CQTPhaseDiff_init C1_hz name sr hop_length n_octaves over_sample
                            fmin
      = Ok diff
    ∧ Cqt.fmin parent = default C1_hz fmin
    ∧ (∀ data, Cqt.CQT_transform_audio Audio magphase_cqt parent y
               = Ok data →
               conforms (Cqt.fields parent) data)
    ∧ (∀ data, Cqt.CQTMag_transform_audio Audio magphase_cqt mag_only y
               = Ok data →
               conforms (Cqt.fields mag_only) data)
    ∧ (∀ data, Cqt.CQTPhaseDiff_transform_audio Audio magphase_cqt
                 phase_diff diff y = Ok data →
               conforms (Cqt.fields diff) data).
Proof.
  intros Hlib Hpd.
  set (F := mk_field [None; Some (Z.to_nat (n_octaves * 12 * over_sample))]
                     np_float).
  set (f0 := match fmin with None => C1_hz | Some f => f end).
  exists (Cqt.mk_CQT name sr hop_length n_octaves over_sample f0
            (<["mag" := F]> {["phase" := F]})),
         (Cqt.mk_CQT name sr hop_length n_octaves over_sample f0
            {["mag" := F]}),
         (Cqt.mk_CQT name sr hop_length n_octaves over_sample f0
            (<["mag" := F]> {["dphase" := F]})).
  split; [reflexivity |]. split; [reflexivity |]. split; [reflexivity |].
  split; [now destruct fmin |].
  unfold Cqt.CQTMag_transform_audio, Cqt.CQTPhaseDiff_transform_audio,
    Cqt.CQT_transform_audio.
  cbn [Cqt.fields Cqt.hop_length Cqt.sr Cqt.fmin Cqt.n_octaves
       Cqt.over_sample].
  destruct (magphase_cqt y sr hop_length f0 (n_octaves * over_sample * 12)
                         (over_sample * 12)) as [[mag phase]|e] eqn:Hm;
    simpl; [| repeat split; discriminate].
  destruct (Hlib _ _ _ _ _ _ _ _ Hm) as [Hmag Hphase].
  assert (Hbins : n_octaves * over_sample * 12
                  = n_octaves * 12 * over_sample) by lia.
  rewrite Hbins in Hmag, Hphase.
  split; [| split]; intros data Hd.
  - injection Hd as <-.
    apply (conforms_two "mag" "phase" F F (astype np_float mag)
             (astype np_float phase)); [discriminate | |];
      simpl; congruence.
  - assert (Hd' : Ok {["mag" := Array np_float (astype np_float mag)]}
                  = Ok data) by exact Hd.
    injection Hd' as <-.
    apply (conforms_one "mag" F (astype np_float mag)). simpl. congruence.
  - assert (Hd' : Ok (<["mag" := Array np_float (astype np_float mag)]>
                        {["dphase" := phase_diff
                                        (Array np_float
                                               (astype np_float phase))]})
                  = Ok data) by exact Hd.
    injection Hd' as <-.
    destruct (Hpd np_float (astype np_float phase)) as (b & -> & Hb).
    apply (conforms_two "mag" "dphase" F F (astype np_float mag) b);
      [discriminate | |]; simpl in *; congruence.
Qed.

End CQTConformance.

Section MelConformance.

Variable Audio : Type.
Variable sqrt_melspectrogram :
  Audio → Q → Z → Z → Z → option Q → result (ndarray np_float).

(** X21: If the Mel spectrogram of the library has [n_mels] bands, then what
    [Mel.transform_audio] returns conforms to the field the constructor
    registers; the constructor never fails. *)
Theorem mel_data_conforms name sr hop_length n_fft n_mels fmax y :
  mel_bands sqrt_melspectrogram →
  ∃ self,
    MelSpec.Mel_init name sr hop_length n_fft n_mels fmax = Ok self
    ∧ ∀ data, MelSpec.Mel_transform_audio Audio sqrt_melspectrogram self y
              = Ok data →
              conforms (MelSpec.fields self) data.
Proof.
  intros Hlib.
  set (F := mk_field [None; Some (Z.to_nat n_mels)] np_float).
  exists (MelSpec.mk_Mel name sr hop_length n_fft n_mels fmax
            {["mag" := F]}).
  split; [reflexivity |].
  unfold MelSpec.Mel_transform_audio.
  cbn [MelSpec.fields MelSpec.hop_length MelSpec.sr MelSpec.n_fft
       MelSpec.n_mels MelSpec.fmax].
  destruct (sqrt_melspectrogram y sr n_fft hop_length n_mels fmax)
    as [mel|e] eqn:Hm; simpl; [| discriminate].
  intros data [= <-].
  apply (conforms_one "mag" F (astype np_float mel)). simpl.
  now rewrite (Hlib _ _ _ _ _ _ _ Hm).
Qed.

End MelConformance.

Section RhythmConformance.

Variable Audio : Type.
Variable tempogram : Audio → Q → Z → Z → result (ndarray np_float).
Variable abs_fmt : field_value → Z → field_value.

(** X22: If the tempogram of the library has [win_length] lags and the scale
    transform keeps [1 + n_fmt // 2] coefficients, then what
    [transform_audio] returns conforms to the fields the constructor
    registers, for [Tempogram] and [TempoScale]: the latter returns the key
    [temposcale] alone, in place of [tempogram].  The constructors never
    fail. *)
Theorem rhythm_data_conforms name sr hop_length win_length n_fmt y :
  tempogram_lags tempogram →
  fmt_coefficients abs_fmt →
  ∃ tgram scale,
    Rhythm.Tempogram_init name sr hop_length win_length = Ok tgram
    ∧ Rhythm.TempoScale_init name sr hop_length win_length n_fmt = Ok scale
    ∧ Rhythm.n_fmt scale = n_fmt
    ∧ (∀ data, Rhythm.Tempogram_transform_audio Audio tempogram tgram y
               = Ok data →
               conforms (Rhythm.fields tgram) data)
    ∧ (∀ data, Rhythm.TempoScale_transform_audio Audio tempogram abs_fmt
                 scale y = Ok data →
               conforms (Rhythm.fields (Rhythm.base scale)) data
               ∧ dom data = {["temposcale"]}).
Proof.
  intros Hlib Hfmt.
  set (F := mk_field [None; Some (Z.to_nat win_length)] np_float).
  set (G := mk_field [None; Some (Z.to_nat (1 + n_fmt / 2))] np_float).
  exists (Rhythm.mk_Tempogram name sr hop_length win_length
            {["tempogram" := F]}),
         (Rhythm.mk_TempoScale
            (Rhythm.mk_Tempogram name sr hop_length win_length
               {["temposcale" := G]}) n_fmt).
  split; [reflexivity |]. split; [reflexivity |]. split; [reflexivity |].
  unfold Rhythm.TempoScale_transform_audio, Rhythm.Tempogram_transform_audio.
  cbn [Rhythm.fields Rhythm.hop_length Rhythm.sr Rhythm.win_length
       Rhythm.base Rhythm.n_fmt].
  destruct (tempogram y sr hop_length win_length) as [t|e] eqn:Hm;
    simpl; [| split; discriminate].
  split; intros data Hd.
  - injection Hd as <-.
    apply (conforms_one "tempogram" F (astype np_float t)). simpl.
    now rewrite (Hlib _ _ _ _ _ Hm).
  - assert (Hd' : Ok {["temposcale" :=
                         abs_fmt (Array np_float (astype np_float t)) n_fmt]}
                  = Ok data) by exact Hd.
    injection Hd' as <-.
    destruct (Hfmt np_float (astype np_float t) n_fmt) as (b & -> & Hb).
    split; [| apply dom_singleton_L].
    apply (conforms_one "temposcale" G b). simpl. congruence.
Qed.

End RhythmConformance.

Lemma stft_data_conforms_witness :
  ∃ self data,
    FFT.STFTPhaseDiff_init "stft" 22050 512 2048 = Ok self
    ∧ FFT.STFTPhaseDiff_transform_audio unit
        (λ _ _ n, Ok (mk_ndarray (Z.to_nat (1 + n / 2)) [],
                      mk_ndarray (Z.to_nat (1 + n / 2)) []))
        (λ v, v) self tt = Ok data
    ∧ conforms (FFT.fields self) data.
Proof.
  destruct (stft_data_conforms unit
              (λ _ _ n, Ok (mk_ndarray (Z.to_nat (1 + n / 2)) [],
                            mk_ndarray (Z.to_nat (1 + n / 2)) []))
              (λ v, v) "stft" 22050%Q 512 2048 tt)
    as (parent & mag_only & diff & _ & _ & Hdiff & _ & _ & Hconf).
  - intros y hop n mag phase [= <- <-]. split; reflexivity.
  - intros dt a. exists a. split; reflexivity.
  - exists diff. eexists. split; [exact Hdiff |].
    injection Hdiff as <-.
    split; [reflexivity |]. apply Hconf. reflexivity.
Defined.

Lemma cqt_data_conforms_witness :
  ∃ self data,
    Cqt.CQT_init 33 "cqt" 22050 512 8 3 None = Ok self
    ∧ Cqt.CQT_transform_audio unit
        (λ _ _ _ _ n _, Ok (mk_ndarray (Z.to_nat n) [],
                            mk_ndarray (Z.to_nat n) []))
        self tt = Ok data
    ∧ conforms (Cqt.fields self) data.
Proof.
  destruct (cqt_data_conforms unit
              (λ _ _ _ _ n _, Ok (mk_ndarray (Z.to_nat n) [],
                                  mk_ndarray (Z.to_nat n) []))
              (λ v, v) 33%Q "cqt" 22050%Q 512 8 3 None tt)
    as (parent & mag_only & diff & Hparent & _ & _ & _ & Hconf & _).
  - intros y sr hop fmin n b mag phase [= <- <-]. split; reflexivity.
  - intros dt a. exists a. split; reflexivity.
  - exists parent. eexists. split; [exact Hparent |].
    injection Hparent as <-.
    split; [reflexivity |]. apply Hconf. reflexivity.
Defined.

Lemma mel_data_conforms_witness :
  ∃ self data,
    MelSpec.Mel_init "mel" 22050 512 2048 128 None = Ok self
    ∧ MelSpec.Mel_transform_audio unit
        (λ _ _ _ _ n _, Ok (mk_ndarray (Z.to_nat n) [])) self tt = Ok data
    ∧ conforms (MelSpec.fields self) data.
Proof.
  destruct (mel_data_conforms unit
              (λ _ _ _ _ n _, Ok (mk_ndarray (Z.to_nat n) []))
              "mel" 22050%Q 512 2048 128 None tt) as (self & Hself & Hconf).
  - intros y sr n_fft hop n fmax mel [= <-]. reflexivity.
  - exists self. eexists. split; [exact Hself |].
    injection Hself as <-.
    split; [reflexivity |]. apply Hconf. reflexivity.
Defined.

Lemma rhythm_data_conforms_witness :
  ∃ self data,
    Rhythm.TempoScale_init "rhythm" 22050 512 384 128 = Ok self
    ∧ Rhythm.TempoScale_transform_audio unit
        (λ _ _ _ w, Ok (mk_ndarray (Z.to_nat w) []))
        (λ _ n, Array np_float (mk_ndarray (Z.to_nat (1 + n / 2)) []))
        self tt = Ok data
    ∧ conforms (Rhythm.fields (Rhythm.base self)) data.
Proof.
  destruct (rhythm_data_conforms unit
              (λ _ _ _ w, Ok (mk_ndarray (Z.to_nat w) []))
              (λ _ n, Array np_float (mk_ndarray (Z.to_nat (1 + n / 2)) []))
              "rhythm" 22050%Q 512 384 128 tt)
    as (tgram & scale & _ & Hscale & _ & _ & Hconf).
  - intros y sr hop w t [= <-]. reflexivity.
  - intros dt a n. eexists. split; reflexivity.
  - exists scale. eexists. split; [exact Hscale |].
    injection Hscale as <-.
    split; [reflexivity |]. apply Hconf. reflexivity.
Defined.

(** ** What a row holds: one contribution, and the boolean dtype *)

Lemma add_fill_cast sdt dt (x : elem sdt) :
  is_exact dt = true →
  add dt (fill_value dt) (astype_scalar sdt dt x) = astype_scalar sdt dt x.
Proof.
  intros Hdt. fill_cases dt; try discriminate.
  - reflexivity.
  - rewrite wrap_signed_add_r. reflexivity.
  - rewrite wrap_unsigned_add_r. reflexivity.
Qed.

Lemma fill_row_add_cast {sdt} dt (v : list (elem sdt)) :
  is_exact dt = true →
  row_iadd (fill_row dt (length v)) (map (astype_scalar sdt dt) v)
  = map (astype_scalar sdt dt) v.
Proof.
  intros Hdt. unfold row_iadd, fill_row.
  induction v as [|x v IH]; simpl; [reflexivity |].
  f_equal; [now apply add_fill_cast | exact IH].
Qed.

Lemma foldl_row_iadd_bool (cols : list (list bool)) :
  ∀ (row : list bool) j b,
    row !! j = Some b →
    Forall (λ c, length c = length row) cols →
    foldl (row_iadd (dt := np_bool)) row cols !! j
    = Some (b || existsb (λ c, bool_decide (c !! j = Some true)) cols).
Proof.
  induction cols as [|c cols IH]; simpl; intros row j b Hj Hall.
  - now rewrite orb_false_r.
  - apply Forall_cons in Hall as [Hc Hall].
    assert (Hlt : (j < length c)%nat).
    { rewrite Hc. eapply lookup_lt_Some, Hj. }
    destruct (lookup_lt_is_Some_2 _ _ Hlt) as [x Hx].
    assert (Hlen : length (row_iadd (dt := np_bool) row c) = length row).
    { unfold row_iadd. rewrite length_zip_with.
      change (elem np_bool) with bool. lia. }
    rewrite (IH _ j (b || x)).
    + rewrite Hx. rewrite orb_assoc. do 3 f_equal.
      destruct x.
      * now rewrite bool_decide_eq_true_2.
      * rewrite bool_decide_eq_false_2; [reflexivity | discriminate].
    + unfold row_iadd. rewrite lookup_zip_with. simpl in *.
      rewrite Hj. simpl. rewrite Hx. reflexivity.
    + eapply Forall_impl; [exact Hall |]. intros c0 Hc0.
      etrans; [exact Hc0 |]. symmetry. exact Hlen.
Qed.

Section RowContents.

Variable time_to_frames : Q → Q → Z → Z.

Abbreviation frame_r := (frame_of time_to_frames).
Abbreviation n_r self duration :=
  (Z.to_nat (frame_of time_to_frames self duration)).

Lemma encode_events_row_sum {sdt} self duration events
    (values : ndarray sdt) dt r f :
  encode_events time_to_frames self duration events values dt = Ok r →
  (f < n_r self duration)%nat →
  rows r !! f
  = Some (foldl row_iadd (fill_row dt (shape1 values))
                (hitting_columns (n_r self duration)
                   (event_pairs time_to_frames self events values dt) f)).
Proof.
  intros Hr Hf.
  apply encode_events_Ok in Hr as (Hn & t & Ht & ->). simpl.
  eapply events_loop_pointwise in Ht.
  - rewrite Ht, length_replicate. reflexivity.
  - now apply lookup_replicate_2.
Qed.

Lemma encode_intervals_row_sum {sdt} self duration intervals
    (values : ndarray sdt) dt r f :
  encode_intervals time_to_frames self duration intervals values dt = Ok r →
  (f < n_r self duration)%nat →
  rows r !! f
  = Some (foldl row_iadd (fill_row dt (shape1 values))
                (covering_columns (n_r self duration)
                   (interval_pairs time_to_frames self intervals values dt)
                   f)).
Proof.
  intros (Hn & ->)%encode_intervals_Ok Hf. simpl.
  rewrite intervals_loop_pointwise, length_replicate.
  now rewrite lookup_replicate_2 by exact Hf.
Qed.

Lemma cast_row_of_values {sdt} (values : ndarray sdt) dt c :
  well_shaped values →
  c ∈ rows (astype dt values) →
  ∃ v, c = map (astype_scalar sdt dt) v ∧ length v = shape1 values.
Proof.
  intros Hv Hc. simpl in Hc.
  apply list_elem_of_fmap in Hc as (v & -> & Hin).
  exists v. split; [reflexivity |].
  eapply Forall_forall in Hv; eassumption.
Qed.

Lemma hitting_columns_cast {sdt} self events (values : ndarray sdt) dt n f c :
  well_shaped values →
  c ∈ hitting_columns n (event_pairs time_to_frames self events values dt) f →
  ∃ v, c = map (astype_scalar sdt dt) v ∧ length v = shape1 values.
Proof.
  intros Hv Hc. apply (cast_row_of_values values dt c Hv).
  unfold hitting_columns, event_pairs in Hc.
  apply list_elem_of_fmap in Hc as ([c' e] & -> & Hin).
  apply list_elem_of_filter in Hin as [_ Hin].
  now apply elem_of_zip_l in Hin.
Qed.

Lemma covering_columns_cast {sdt} self intervals (values : ndarray sdt) dt
    n f c :
  well_shaped values →
  c ∈ covering_columns n
        (interval_pairs time_to_frames self intervals values dt) f →
  ∃ v, c = map (astype_scalar sdt dt) v ∧ length v = shape1 values.
Proof.
  intros Hv Hc. apply (cast_row_of_values values dt c Hv).
  unfold covering_columns, interval_pairs in Hc.
  apply list_elem_of_fmap in Hc as ([c' e] & -> & Hin).
  apply list_elem_of_filter in Hin as [_ Hin].
  now apply elem_of_zip_l in Hin.
Qed.

(** X23: At a boolean or integer dtype, a row that exactly one event lands on
    holds the value row of that event, cast to the dtype. *)
Theorem encode_events_single_hit {sdt} self duration events
    (values : ndarray sdt) dt r f c :
  is_exact dt = true →
  well_shaped values →
  encode_events time_to_frames self duration events values dt = Ok r →
  (f < n_r self duration)%nat →
  hitting_columns (n_r self duration)
    (event_pairs time_to_frames self events values dt) f = [c] →
  rows r !! f = Some c.
Proof.
  intros Hdt Hv Hr Hf Hc.
  rewrite (encode_events_row_sum _ _ _ _ _ _ _ Hr Hf), Hc. simpl.
  destruct (hitting_columns_cast self events values dt (n_r self duration)
              f c Hv) as (v & -> & Hlen).
  { rewrite Hc. apply list_elem_of_here. }
  rewrite <- Hlen. now rewrite fill_row_add_cast.
Qed.

(** X24: At a boolean or integer dtype, a row that lies in the slice of exactly
    one interval holds the value row of that interval, cast to the dtype. *)
Theorem encode_intervals_single_cover {sdt} self duration intervals
    (values : ndarray sdt) dt r f c :
  is_exact dt = true →
  well_shaped values →
  encode_intervals time_to_frames self duration intervals values dt = Ok r →
  (f < n_r self duration)%nat →
  covering_columns (n_r self duration)
    (interval_pairs time_to_frames self intervals values dt) f = [c] →
  rows r !! f = Some c.
Proof.
  intros Hdt Hv Hr Hf Hc.
  rewrite (encode_intervals_row_sum _ _ _ _ _ _ _ Hr Hf), Hc. simpl.
  destruct (covering_columns_cast self intervals values dt
              (n_r self duration) f c Hv) as (v & -> & Hlen).
  { rewrite Hc. apply list_elem_of_here. }
  rewrite <- Hlen. now rewrite fill_row_add_cast.
Qed.

(** X25: At the default boolean dtype the encoders take a logical or: entry
    [(f, j)] of the array of [encode_events] is true exactly when some event
    that lands on row [f] has a true value in column [j], and entry [(f, j)]
    of the array of [encode_intervals] is true exactly when some interval
    whose slice holds row [f] has a true value in column [j]. *)
Theorem encode_bool_any {sdt} self duration events intervals
    (values : ndarray sdt) f j :
  well_shaped values →
  (f < n_r self duration)%nat →
  (j < shape1 values)%nat →
  (∀ r, encode_events time_to_frames self duration events values np_bool
        = Ok r →
        ∃ row : list bool,
          rows r !! f = Some row
          ∧ row !! j
            = Some (existsb (λ c : list bool, bool_decide (c !! j = Some true))
                      (hitting_columns (n_r self duration)
                         (event_pairs time_to_frames self events values
                                      np_bool) f)))
  ∧ (∀ r, encode_intervals time_to_frames self duration intervals values
                           np_bool = Ok r →
          ∃ row : list bool,
            rows r !! f = Some row
            ∧ row !! j
              = Some (existsb
                        (λ c : list bool, bool_decide (c !! j = Some true))
                        (covering_columns (n_r self duration)
                           (interval_pairs time_to_frames self intervals
                                           values np_bool) f))).
Proof.
  intros Hv Hf Hj.
  assert (Hfill : fill_row np_bool (shape1 values) !! j = Some false).
  { unfold fill_row. now apply lookup_replicate_2. }
  assert (Hfl : length (fill_row np_bool (shape1 values)) = shape1 values).
  { apply length_replicate. }
  split; intros r Hr.
  - eexists. split; [apply (encode_events_row_sum _ _ _ _ _ _ _ Hr Hf) |].
    rewrite (foldl_row_iadd_bool _ _ j false Hfill); [reflexivity |].
    apply Forall_forall. intros c Hc.
    destruct (hitting_columns_cast self events values np_bool
                (n_r self duration) f c Hv Hc) as (v & -> & Hlen).
    simpl in *. rewrite length_map. congruence.
  - eexists. split; [apply (encode_intervals_row_sum _ _ _ _ _ _ _ Hr Hf) |].
    rewrite (foldl_row_iadd_bool _ _ j false Hfill); [reflexivity |].
    apply Forall_forall. intros c Hc.
    destruct (covering_columns_cast self intervals values np_bool
                (n_r self duration) f c Hv Hc) as (v & -> & Hlen).
    simpl in *. rewrite length_map. congruence.
Qed.

End RowContents.

Lemma encode_events_single_hit_witness :
  encode_events time_to_frames_floor one_fps 3 [1; 2]%Q two_ones (np_int 8)
  = Ok (@mk_ndarray (np_int 8) 1 [[0]; [1]; [1]])
  ∧ [[0]; [1]; [1]] !! 1%nat = Some [1].
Proof.
  assert (H : encode_events time_to_frames_floor one_fps 3 [1; 2]%Q two_ones
                            (np_int 8)
              = Ok (@mk_ndarray (np_int 8) 1 [[0]; [1]; [1]]))
    by (vm_compute; reflexivity).
  split; [exact H |].
  apply (encode_events_single_hit time_to_frames_floor one_fps 3%Q [1; 2]%Q
           two_ones (np_int 8) (@mk_ndarray (np_int 8) 1 [[0]; [1]; [1]])
           1%nat [1] eq_refl).
  - repeat constructor.
  - exact H.
  - vm_compute. lia.
  - vm_compute. reflexivity.
Defined.

Lemma encode_intervals_single_cover_witness :
  encode_intervals time_to_frames_floor one_fps 3 [(0, 2); (1, 3)]%Q two_ones
                   (np_int 8)
  = Ok (@mk_ndarray (np_int 8) 1 [[1]; [2]; [1]])
  ∧ [[1]; [2]; [1]] !! 2%nat = Some [1].
Proof.
  assert (H : encode_intervals time_to_frames_floor one_fps 3
                               [(0, 2); (1, 3)]%Q two_ones (np_int 8)
              = Ok (@mk_ndarray (np_int 8) 1 [[1]; [2]; [1]]))
    by (vm_compute; reflexivity).
  split; [exact H |].
  apply (encode_intervals_single_cover time_to_frames_floor one_fps 3%Q
           [(0, 2); (1, 3)]%Q two_ones (np_int 8)
           (@mk_ndarray (np_int 8) 1 [[1]; [2]; [1]]) 2%nat [1] eq_refl).
  - repeat constructor.
  - exact H.
  - vm_compute. lia.
  - vm_compute. reflexivity.
Defined.

Lemma encode_bool_any_witness :
  well_shaped two_ones
  ∧ ∀ r, encode_intervals time_to_frames_floor ten_fps 2
                          overlapping_intervals two_ones np_bool = Ok r →
         ∃ row : list bool,
           rows r !! 7%nat = Some row
           ∧ row !! 0%nat
             = Some (existsb
                       (λ c : list bool, bool_decide (c !! 0%nat = Some true))
                       (covering_columns
                          (Z.to_nat (frame_of time_to_frames_floor ten_fps 2))
                          (interval_pairs time_to_frames_floor ten_fps
                             overlapping_intervals two_ones np_bool) 7)).
Proof.
  assert (H : well_shaped two_ones) by (repeat constructor).
  split; [exact H |].
  apply (encode_bool_any time_to_frames_floor ten_fps 2%Q []
           overlapping_intervals two_ones 7%nat 0%nat H).
  - vm_compute. lia.
  - simpl. lia.
Defined.

(** ** Unobserved frames, and the floating dtypes *)

Section UnobservedFrames.

Variable time_to_frames : Q → Q → Z → Z.

Abbreviation frame_u := (frame_of time_to_frames).
Abbreviation n_u self duration :=
  (Z.to_nat (frame_of time_to_frames self duration)).

(** [encode_events] returns as soon as the frame count is non-negative and
    every event has its frame within [-n_frames, n_frames). *)
Lemma encode_events_total {sdt} self duration events (values : ndarray sdt)
    dt :
  0 ≤ frame_u self duration →
  Forall (λ t, is_ok (index_axis (n_u self duration) (frame_u self t))
               = true) events →
  ∃ r, encode_events time_to_frames self duration events values dt = Ok r.
Proof.
  intros Hn Hall.
  destruct (events_loop_in_range
              (zip (rows (astype dt values)) (map (frame_u self) events))
              (replicate (n_u self duration)
                         (fill_row dt (shape1 values)))) as [t Ht].
  - rewrite length_replicate.
    apply (Forall_zip_snd
             (λ e, is_ok (index_axis (n_u self duration) e) = true)).
    now apply Forall_map.
  - eexists. apply encode_events_Ok. split; [exact Hn |]. now exists t.
Qed.

Lemma encode_events_rows {sdt} self duration events (values : ndarray sdt)
    dt r :
  well_shaped values →
  encode_events time_to_frames self duration events values dt = Ok r →
  Forall (λ row, length row = shape1 values) (rows r).
Proof.
  intros Hv Hr. apply (astype_well_shaped dt) in Hv.
  unfold well_shaped in Hv. simpl in Hv.
  apply encode_events_Ok in Hr as (Hn & t & Ht & ->). simpl.
  eapply events_loop_row_length; [exact Ht | |].
  - apply Forall_replicate. apply length_replicate.
  - apply (Forall_zip_fst (λ c, length c = shape1 values)). exact Hv.
Qed.

Lemma encode_intervals_rows {sdt} self duration intervals
    (values : ndarray sdt) dt r :
  well_shaped values →
  encode_intervals time_to_frames self duration intervals values dt = Ok r →
  Forall (λ row, length row = shape1 values) (rows r).
Proof.
  intros Hv Hr. apply (astype_well_shaped dt) in Hv.
  unfold well_shaped in Hv. simpl in Hv.
  apply encode_intervals_Ok in Hr as (Hn & ->). simpl.
  apply intervals_loop_row_length.
  - apply Forall_replicate. apply length_replicate.
  - apply (Forall_zip_fst (λ c, length c = shape1 values)). exact Hv.
Qed.

(** Every entry of an array of [n] rows of [m] entries that is NaN
    throughout reads NaN. *)
Lemma all_nan_entry {dt} (r : ndarray dt) n m f j :
  shape0 r = n →
  Forall (λ row, length row = m) (rows r) →
  all_nan r →
  (f < n)%nat → (j < m)%nat →
  ∃ row x, rows r !! f = Some row ∧ row !! j = Some x
           ∧ np_isnan dt x = true.
Proof.
  unfold shape0, all_nan, rows_nan. intros Hs Hlen Hnan Hf Hj.
  destruct (lookup_lt_is_Some_2 (rows r) f) as [row Hrow]; [lia |].
  assert (Hm : length row = m).
  { eapply Forall_lookup_1 in Hlen; eassumption. }
  destruct (lookup_lt_is_Some_2 row j) as [x Hx]; [lia |].
  exists row, x. split; [exact Hrow |]. split; [exact Hx |].
  eapply Forall_lookup_1 in Hnan; [| exact Hrow].
  eapply Forall_lookup_1 in Hnan; [| exact Hx]. exact Hnan.
Qed.

(** C3: whatever either encoder returns has one row for each of the
    [n_frames] frames of the track, and a frame that no event lands on
    (resp. that lies in no interval's slice) holds a row of fill values,
    where the fill value is NaN for a floating or complex dtype and zero for
    every other dtype.  The encoders do return: [encode_intervals] for every
    track of non-negative frame count, [encode_events] for such a track as
    soon as every event has its frame within the frame axis. *)
Theorem encode_unobserved_frames_fill {sdt} self duration events intervals
    (values : ndarray sdt) dt (f : nat) :
  let n := n_u self duration in
  (∀ r, encode_events time_to_frames self duration events values dt = Ok r →
        shape0 r = n
        ∧ ((f < n)%nat →
           Forall (λ t, hits n (frame_u self t) f = false) events →
           rows r !! f = Some (fill_row dt (shape1 values))))
  ∧ (∀ r, encode_intervals time_to_frames self duration intervals values dt
          = Ok r →
          shape0 r = n
          ∧ ((f < n)%nat →
             Forall (λ iv, in_slice n (frame_u self iv.1)
                                    (frame_u self iv.2) f = false)
                    intervals →
             rows r !! f = Some (fill_row dt (shape1 values))))
  ∧ (0 ≤ frame_u self duration →
     (Forall (λ t, is_ok (index_axis n (frame_u self t)) = true) events →
      ∃ r, encode_events time_to_frames self duration events values dt
           = Ok r)
     ∧ ∃ r, encode_intervals time_to_frames self duration intervals values
                             dt = Ok r)
  ∧ (if issubdtype_float dt || issubdtype_complex dt
     then np_isnan dt (fill_value dt) = true
     else to_Z dt (fill_value dt) = 0
          ∧ np_isnan dt (fill_value dt) = false).
Proof.
  intros n. split; [| split; [| split]].
  - intros r Hr.
    destruct (encode_events_shape _ _ _ _ _ _ _ Hr) as [Hs _].
    split; [exact Hs |]. intros Hf Hall.
    apply encode_events_Ok in Hr as (Hn & t & Ht & ->). simpl.
    rewrite (events_loop_unhit _ _ _ f Ht).
    + now apply lookup_replicate_2.
    + rewrite length_replicate.
      apply (Forall_zip_snd (λ e, hits n e f = false)).
      now apply Forall_map.
  - intros r Hr.
    apply encode_intervals_Ok in Hr as (Hn & ->).
    split.
    { unfold shape0. simpl.
      now rewrite length_intervals_loop, length_replicate. }
    intros Hf Hall. simpl.
    rewrite intervals_loop_outside.
    + now apply lookup_replicate_2.
    + rewrite length_replicate.
      apply (Forall_zip_snd (λ fr, in_slice n fr.1 fr.2 f = false)).
      apply Forall_map. exact Hall.
  - intros Hn. split.
    + intros Hall. now apply encode_events_total.
    + destruct (encode_intervals_total time_to_frames self duration
                  intervals values dt Hn) as (r & Hr & _).
      now exists r.
  - fill_cases dt; auto.
Qed.

(** C4: with a floating or complex dtype, whatever either encoder returns
    has one row for each of the [n_frames] frames of the track and is NaN
    throughout, whatever events, intervals and values are supplied: for a
    well-shaped values array, entry [(f, j)] reads NaN for every frame
    [f < n_frames] and every column [j], on the frames events land on or
    intervals cover as on the others.  The encoders do return, as for the
    other dtypes. *)
Theorem encode_floating_all_nan {sdt} self duration events intervals
    (values : ndarray sdt) dt :
  issubdtype_float dt || issubdtype_complex dt = true →
  let n := n_u self duration in
  (∀ r, encode_events time_to_frames self duration events values dt = Ok r →
        shape0 r = n ∧ all_nan r
        ∧ (well_shaped values →
           ∀ f j, (f < n)%nat → (j < shape1 values)%nat →
             ∃ row x, rows r !! f = Some row ∧ row !! j = Some x
                      ∧ np_isnan dt x = true))
  ∧ (∀ r, encode_intervals time_to_frames self duration intervals values dt
          = Ok r →
          shape0 r = n ∧ all_nan r
          ∧ (well_shaped values →
             ∀ f j, (f < n)%nat → (j < shape1 values)%nat →
               ∃ row x, rows r !! f = Some row ∧ row !! j = Some x
                        ∧ np_isnan dt x = true))
  ∧ (0 ≤ frame_u self duration →
     (Forall (λ t, is_ok (index_axis n (frame_u self t)) = true) events →
      ∃ r, encode_events time_to_frames self duration events values dt
           = Ok r)
     ∧ ∃ r, encode_intervals time_to_frames self duration intervals values
                             dt = Ok r).
Proof.
  intros Hdt n. split; [| split].
  - intros r Hr.
    destruct (encode_events_shape _ _ _ _ _ _ _ Hr) as [Hs _].
    assert (Hnan : all_nan r).
    { pose proof Hr as Hr'.
      apply encode_events_Ok in Hr' as (Hn & t & Ht & ->).
      unfold all_nan. simpl.
      eapply events_loop_nan; [| exact Ht]. now apply fill_rows_nan. }
    split; [exact Hs |]. split; [exact Hnan |].
    intros Hv f j Hf Hj.
    apply (all_nan_entry r n (shape1 values)); try assumption.
    eapply encode_events_rows; eassumption.
  - intros r Hr.
    assert (Hs : shape0 r = n).
    { pose proof Hr as Hr'. apply encode_intervals_Ok in Hr' as (Hn & ->).
      unfold shape0. simpl.
      now rewrite length_intervals_loop, length_replicate. }
    assert (Hnan : all_nan r).
    { pose proof Hr as Hr'. apply encode_intervals_Ok in Hr' as (Hn & ->).
      unfold all_nan. simpl.
      apply intervals_loop_nan. now apply fill_rows_nan. }
    split; [exact Hs |]. split; [exact Hnan |].
    intros Hv f j Hf Hj.
    apply (all_nan_entry r n (shape1 values)); try assumption.
    eapply encode_intervals_rows; eassumption.
  - intros Hn. split.
    + intros Hall. now apply encode_events_total.
    + destruct (encode_intervals_total time_to_frames self duration
                  intervals values dt Hn) as (r & Hr & _).
      now exists r.
Qed.

End UnobservedFrames.

Lemma encode_unobserved_frames_fill_witness :
  (∃ r : ndarray (np_int 64),
     encode_events time_to_frames_floor ten_fps 2 [1 # 2; 3 # 2]%Q two_ones
                   (np_int 64) = Ok r
     ∧ shape0 r = 20%nat
     ∧ rows r !! 17%nat = Some (fill_row (np_int 64) 1))
  ∧ (∃ r : ndarray np_float,
       encode_intervals time_to_frames_floor ten_fps 2 overlapping_intervals
                        two_ones np_float = Ok r
       ∧ shape0 r = 20%nat
       ∧ rows r !! 17%nat = Some (fill_row np_float 1)).
Proof.
  assert (Hn : 0 ≤ frame_of time_to_frames_floor ten_fps 2)
    by (vm_compute; discriminate).
  split.
  - destruct (proj1 (proj1 (proj2 (proj2
                (encode_unobserved_frames_fill time_to_frames_floor ten_fps
                   2%Q [1 # 2; 3 # 2]%Q [] two_ones (np_int 64) 17%nat)))
              Hn)) as [r Hr].
    { repeat (apply Forall_cons; split); [| | by apply Forall_nil];
        vm_compute; reflexivity. }
    exists r. split; [exact Hr |].
    destruct (proj1 (encode_unobserved_frames_fill time_to_frames_floor
                       ten_fps 2%Q [1 # 2; 3 # 2]%Q [] two_ones (np_int 64)
                       17%nat) r Hr) as [Hs Hfill].
    split; [exact Hs |]. apply Hfill.
    + vm_compute. lia.
    + repeat (apply Forall_cons; split); [| | by apply Forall_nil];
        vm_compute; reflexivity.
  - destruct (proj2 (proj1 (proj2 (proj2
                (encode_unobserved_frames_fill time_to_frames_floor ten_fps
                   2%Q [] overlapping_intervals two_ones np_float 17%nat)))
              Hn)) as [r Hr].
    exists r. split; [exact Hr |].
    destruct (proj1 (proj2
                (encode_unobserved_frames_fill time_to_frames_floor ten_fps
                   2%Q [] overlapping_intervals two_ones np_float 17%nat))
                r Hr) as [Hs Hfill].
    split; [exact Hs |]. apply Hfill.
    + vm_compute. lia.
    + repeat (apply Forall_cons; split); [| | by apply Forall_nil];
        vm_compute; reflexivity.
Defined.

Lemma encode_floating_all_nan_witness :
  (∃ r : ndarray np_float,
     encode_events time_to_frames_floor ten_fps 2 [1 # 2; 3 # 2]%Q two_ones
                   np_float = Ok r
     ∧ shape0 r = 20%nat
     ∧ ∃ row x, rows r !! 5%nat = Some row ∧ row !! 0%nat = Some x
                ∧ np_isnan np_float x = true)
  ∧ (∃ r : ndarray np_complex,
       encode_intervals time_to_frames_floor ten_fps 2 overlapping_intervals
                        two_ones np_complex = Ok r
       ∧ shape0 r = 20%nat
       ∧ (∃ row x, rows r !! 7%nat = Some row ∧ row !! 0%nat = Some x
                   ∧ np_isnan np_complex x = true)
       ∧ ∃ row x, rows r !! 17%nat = Some row ∧ row !! 0%nat = Some x
                  ∧ np_isnan np_complex x = true).
Proof.
  assert (Hn : 0 ≤ frame_of time_to_frames_floor ten_fps 2)
    by (vm_compute; discriminate).
  assert (Hv : well_shaped two_ones) by (repeat constructor).
  split.
  - destruct (encode_floating_all_nan time_to_frames_floor ten_fps 2%Q
                [1 # 2; 3 # 2]%Q [] two_ones np_float eq_refl)
      as (Hev & _ & Htot).
    destruct (proj1 (Htot Hn)) as [r Hr].
    { repeat (apply Forall_cons; split); [| | by apply Forall_nil];
        vm_compute; reflexivity. }
    exists r. split; [exact Hr |].
    destruct (Hev r Hr) as (Hs & _ & Hentry).
    split; [exact Hs |].
    apply (Hentry Hv); [vm_compute; lia | simpl; lia].
  - destruct (encode_floating_all_nan time_to_frames_floor ten_fps 2%Q
                [] overlapping_intervals two_ones np_complex eq_refl)
      as (_ & Hiv & Htot).
    destruct (proj2 (Htot Hn)) as [r Hr].
    exists r. split; [exact Hr |].
    destruct (Hiv r Hr) as (Hs & _ & Hentry).
    split; [exact Hs |].
    split; apply (Hentry Hv); try (vm_compute; lia); simpl; lia.
Defined.
